(** * LIONZ resources: the mask validation rule [has_label_above_threshold]
    and the rule table [RULES] of [lionz/resources.py].

    The Python function reads a segmentation mask, clears a margin at the
    border of the voxel array, removes the small connected components,
    and writes the mask back.  The embedding below follows the function
    statement by statement:

    - a numpy array of rank three is a nested list, indexed [z][y][x];
    - a basic slice [start:stop] is normalised as Python does it;
    - [scipy.ndimage.label] and [scipy.ndimage.sum] are modelled by
      executable functions whose defining properties are proved;
    - the files read and written through SimpleITK are a finite map from
      paths to images, together with the log of the writes. *)

From Stdlib Require Import ZArith QArith Lia.
From stdpp Require Import base option list gmap strings.

Local Open Scope Z_scope.

(** ** Arrays of rank three *)

Module Ndarray.

Definition coord : Type := nat * nat * nat.

Abbreviation ndarray A := (list (list (list A))).

(** [a[i, j, k]], [None] out of range. *)
Definition get3 {A} (a : ndarray A) (p : coord) : option A :=
  let '(i, j, k) := p in
  plane ← a !! i; row ← plane !! j; row !! k.

(** Elementwise operations. *)
Definition map3 {A B} (f : A → B) (a : ndarray A) : ndarray B :=
  fmap (M := list) (fmap (M := list) (fmap (M := list) f)) a.

Definition zip3 {A B C} (f : A → B → C) (a : ndarray A) (b : ndarray B)
    : ndarray C :=
  zip_with (zip_with (zip_with f)) a b.

Definition imap3 {A B} (f : coord → A → B) (a : ndarray A) : ndarray B :=
  imap (λ i, imap (λ j, imap (λ k, f (i, j, k)))) a.

(** The elements in C order. *)
Definition ravel {A} (a : ndarray A) : list A := mjoin (mjoin a).

(** The shape, plane by plane and row by row (constant for an array that
    numpy can hold; see [has_shape]). *)
Definition extents {A} (a : ndarray A) : list (list nat) :=
  fmap (M := list) (fmap (M := list) length) a.

Definition has_shape {A} (a : ndarray A) (d0 d1 d2 : nat) : Prop :=
  length a = d0 ∧
  Forall (λ plane, length plane = d1 ∧ Forall (λ row, length row = d2) plane) a.

(** [np.zeros_like]. *)
Definition zeros_like (a : ndarray Z) : ndarray Z := map3 (λ _, 0) a.

(** [np.sum] of a boolean array. *)
Definition count_true (a : ndarray bool) : Z :=
  Z.of_nat (length (filter (λ b, b = true) (ravel a))).

End Ndarray.
Import Ndarray.

(** ** Basic slices *)

Module Slice.

(** [start:stop]; [None] is an omitted bound. *)
Definition slice : Type := option Z * option Z.

Definition full : slice := (None, None).
Definition upto (stop : Z) : slice := (None, Some stop).
Definition from (start : Z) : slice := (Some start, None).

(** A bound of a slice of step one on a sequence of length [len]: a
    negative bound counts from the end, and the result is clipped to
    [0 .. len]. *)
Definition clip (len i : Z) : Z :=
  if i <? 0 then Z.max (i + len) 0 else Z.min i len.

Definition lower (len : Z) (sl : slice) : Z :=
  match sl.1 with None => 0 | Some s => clip len s end.

Definition upper (len : Z) (sl : slice) : Z :=
  match sl.2 with None => len | Some s => clip len s end.

Definition selects (len : nat) (sl : slice) (i : nat) : bool :=
  (lower (Z.of_nat len) sl <=? Z.of_nat i) &&
  (Z.of_nat i <? upper (Z.of_nat len) sl).

(** [l[sl] = ...]: the selected positions are updated. *)
Definition assign {A} (sl : slice) (upd : A → A) (l : list A) : list A :=
  imap (λ i x, if selects (length l) sl i then upd x else x) l.

(** [a[s0, s1, s2] = v] *)
Definition setitem3 {A} (s0 s1 s2 : slice) (v : A) (a : ndarray A)
    : ndarray A :=
  assign s0 (assign s1 (assign s2 (λ _, v))) a.

End Slice.

(** ** Connected components: [scipy.ndimage.label] and [scipy.ndimage.sum] *)

Module Ndimage.

(** The elements with their coordinates, in C order. *)
Definition indexed {A} (a : ndarray A) : list (coord * A) :=
  ravel (imap3 (λ p v, (p, v)) a).

(** The coordinates of the [True] elements, in C order. *)
Definition foreground (input : ndarray bool) : list coord :=
  fst <$> filter (λ pv, pv.2 = true) (indexed input).

Definition dist (m n : nat) : nat := ((m - n) + (n - m))%nat.

(** The default structuring element of [label] is
    [generate_binary_structure(3, 1)]: two voxels are neighbours when
    they share a face. *)
Definition adjacent (p q : coord) : bool :=
  let '(i, j, k) := p in
  let '(i', j', k') := q in
  Nat.eqb (dist i i' + dist j j' + dist k k') 1.

(** One component, by a work list: [todo] holds the voxels of the
    component whose neighbours are still to be collected from [rest]. *)
Fixpoint grow (fuel : nat) (todo rest acc : list coord)
    : list coord * list coord :=
  match fuel, todo with
  | S fuel, p :: todo =>
      grow fuel (todo ++ filter (λ q, adjacent p q) rest)
           (filter (λ q, ¬ adjacent p q) rest) (p :: acc)
  | _, _ => (acc, rest)
  end.

(** All components; each one starts at the first voxel, in C order, that
    no earlier component holds. *)
Fixpoint components (fuel : nat) (nodes : list coord) : list (list coord) :=
  match fuel, nodes with
  | S fuel, p :: rest =>
      let cr := grow (length nodes) [p] rest [] in
      cr.1 :: components fuel cr.2
  | _, _ => []
  end.

(** The label of a voxel: the rank of its component, from one; zero for
    the background. *)
Definition label_of (comps : list (list coord)) (p : coord) : nat :=
  from_option (λ ic, S ic.1) 0%nat (list_find (λ c, p ∈ c) comps).

(** [label(input)]: the labelled array and the number of components. *)
Definition label (input : ndarray bool) : ndarray nat * nat :=
  let fg := foreground input in
  let comps := components (length fg) fg in
  (imap3 (λ p _, label_of comps p) input, length comps).

(** [sum(input, labels, index)] for a boolean [input]: for each entry of
    [index], the number of [True] elements of [input] under that label. *)
Definition nd_sum (input : ndarray bool) (labels : ndarray nat)
    (index : list nat) : list Z :=
  (λ i, count_true (zip3 (λ v l, v && bool_decide (l = i)) input labels))
    <$> index.

End Ndimage.

(** ** Images and files: the part of SimpleITK that the function uses *)

Module Sitk.

Record metadata : Type := Metadata {
  origin : list Q;
  spacing : list Q;
  direction : list Q
}.

Record image : Type := Image {
  info : metadata;
  voxels : ndarray Z
}.

(** The files, and the paths written so far (latest last). *)
Record filesystem : Type := Filesystem {
  files : gmap string image;
  writes : list string
}.

(** [ReadImage] raises when there is no image at the path. *)
Definition ReadImage (path : string) (fs : filesystem) : option image :=
  files fs !! path.

Definition WriteImage (img : image) (path : string) (fs : filesystem)
    : filesystem :=
  {| files := <[path := img]> (files fs); writes := writes fs ++ [path] |}.

Definition GetArrayFromImage (img : image) : ndarray Z := voxels img.

(** A new image has the default geometry. *)
Definition default_metadata : metadata :=
  {| origin := [0; 0; 0]%Q; spacing := [1; 1; 1]%Q;
     direction := [1; 0; 0; 0; 1; 0; 0; 0; 1]%Q |}.

Definition GetImageFromArray (a : ndarray Z) : image :=
  {| info := default_metadata; voxels := a |}.

(** [dst.CopyInformation(src)] raises unless the two images have the
    same size. *)
Definition CopyInformation (dst src : image) : option image :=
  if decide (extents (voxels dst) = extents (voxels src))
  then Some {| info := info src; voxels := voxels dst |}
  else None.

End Sitk.

Import Slice Ndimage Sitk.

(** ** [lionz/resources.py] *)

(** The steps of [has_label_above_threshold] on the voxel array. *)

(** Lines 203-208: the six slice assignments that clear the border. *)
Definition flush_border (margin_padding : Z) (mask_array : ndarray Z)
    : ndarray Z :=
  let mask_array := setitem3 (upto margin_padding) full full 0 mask_array in
  let mask_array := setitem3 (from (- margin_padding)) full full 0 mask_array in
  let mask_array := setitem3 full (upto margin_padding) full 0 mask_array in
  let mask_array := setitem3 full (from (- margin_padding)) full 0 mask_array in
  let mask_array := setitem3 full full (upto margin_padding) 0 mask_array in
  setitem3 full full (from (- margin_padding)) 0 mask_array.

(** [mask_array > 0] *)
Definition positive (mask_array : ndarray Z) : ndarray bool :=
  map3 (λ v, 0 <? v) mask_array.

(** [mask_size[labeled_array == index_size] = False] *)
Definition clear_label (index_size : nat) (labeled_array : ndarray nat)
    (mask_size : ndarray bool) : ndarray bool :=
  zip3 (λ m l, if bool_decide (l = index_size) then false else m)
       mask_size labeled_array.

(** The body of the loop of lines 216-218. *)
Definition mask_out (threshold : Z) (labeled_array : ndarray nat)
    (mask_size : ndarray bool) (entry : nat * Z) : ndarray bool :=
  if entry.2 <? threshold
  then clear_label entry.1 labeled_array mask_size
  else mask_size.

(** [mask_array * mask_size] *)
Definition multiply (mask_array : ndarray Z) (mask_size : ndarray bool)
    : ndarray Z :=
  zip3 (λ v (m : bool), v * (if m then 1 else 0)) mask_array mask_size.

(** Lines 211-220: the connected component analysis and the removal of
    the small components. *)
Definition remove_small_components (threshold : Z) (mask_array : ndarray Z)
    : ndarray Z :=
  let '(labeled_array, num_features) := label (positive mask_array) in
  let component_sizes :=
    nd_sum (positive mask_array) labeled_array (seq 0 (S num_features)) in
  let mask_size :=
    foldl (mask_out threshold labeled_array) (positive mask_array)
          (imap pair component_sizes) in
  multiply mask_array mask_size.

(** Line 222: [np.sum(mask_array > 0)] *)
Definition non_zero_voxel_count (mask_array : ndarray Z) : Z :=
  count_true (positive mask_array).

Section Resources.

(** [constants.MARGIN_SCALING_FACTOR]: the module [lionz.constants] is
    not part of the sources at hand, the constant is a parameter. *)
Variable MARGIN_SCALING_FACTOR : Z.

(** The array that the function counts: lines 200-220. *)
Definition cleaned (threshold : Z) (mask_array : ndarray Z) : ndarray Z :=
  let margin_padding := MARGIN_SCALING_FACTOR * threshold in
  remove_small_components threshold (flush_border margin_padding mask_array).

(** The function; the calls to [logging.info] are left out.  [None] is a
    raised exception. *)
Definition has_label_above_threshold (mask_path : string) (threshold : Z)
    (fs : filesystem) : option (bool * filesystem) :=
  mask ← ReadImage mask_path fs;
  let mask_array := GetArrayFromImage mask in
  let mask_array := cleaned threshold mask_array in
  if non_zero_voxel_count mask_array <? threshold then
    zero_mask ← CopyInformation (GetImageFromArray (zeros_like mask_array)) mask;
    Some (false, WriteImage zero_mask mask_path fs)
  else
    updated_mask ← CopyInformation (GetImageFromArray mask_array) mask;
    Some (true, WriteImage updated_mask mask_path fs).

(** The values held by the entries of [RULES]. *)
Inductive rule_value : Type :=
  | RuleFunc (func : string → Z → filesystem → option (bool * filesystem))
             (kwargs : list (string * Z))
  | Str (s : string).

Definition RULES : list (string * list (string * list (string * rule_value))) :=
  [("fdg"%string,
    [("pet_ct"%string,
      [("rule_func"%string,
          RuleFunc has_label_above_threshold [("threshold"%string, 10)]);
       ("action_on_true"%string, Str "stop");
       ("action_on_false"%string, Str "stop")])])].

End Resources.

(** [d[key]] for a dictionary written as the list of its items (the keys
    of the dictionaries of this module are distinct); [None] is a
    [KeyError]. *)
Fixpoint getitem {V} (d : list (string * V)) (key : string) : option V :=
  match d with
  | [] => None
  | (k, v) :: d => if decide (k = key) then Some v else getitem d key
  end.

(** ** Notions used by the statements *)

(** A voxel of the foreground. *)
Definition is_foreground (a : ndarray Z) (p : coord) : Prop :=
  ∃ v, get3 a p = Some v ∧ 0 < v.

(** Two voxels of the foreground that share a face. *)
Definition linked (a : ndarray Z) (p q : coord) : Prop :=
  is_foreground a p ∧ is_foreground a q ∧ adjacent p q.

(** Two voxels of the same connected component: joined by a chain of
    linked voxels. *)
Definition connected (a : ndarray Z) (p q : coord) : Prop :=
  is_foreground a p ∧ rtc (linked a) p q.

(** [comp] lists, once each, the voxels of the component of [p]. *)
Definition component_of (a : ndarray Z) (p : coord) (comp : list coord)
    : Prop :=
  NoDup comp ∧ ∀ q, q ∈ comp ↔ connected a p q.

(** The voxel lies in the margin of width [m] of an array, on one of the
    six sides. *)
Definition in_margin {A} (m : Z) (a : ndarray A) (p : coord) : bool :=
  let '(i, j, k) := p in
  let side (len n : nat) : bool :=
    (Z.of_nat n <? m) || (Z.of_nat len - m <=? Z.of_nat n) in
  side (length a) i
  || side (length (a !!! i)) j
  || side (length ((a !!! i) !!! j)) k.

(** Every voxel is zero. *)
Definition all_zero (a : ndarray Z) : Prop :=
  ∀ p v, get3 a p = Some v → v = 0.

(** The value of the constant in the scenario of the specification. *)
Definition scenario_margin_scaling_factor : Z := 3.

(** The positions that [a[s0, s1, s2]] selects. *)
Definition selects3 {A} (s0 s1 s2 : slice) (a : ndarray A) (p : coord)
    : bool :=
  let '(i, j, k) := p in
  selects (length a) s0 i
  && selects (length (a !!! i)) s1 j
  && selects (length ((a !!! i) !!! j)) s2 k.

(** The positions cleared by [flush_border]. *)
Definition flushed {A} (m : Z) (a : ndarray A) (p : coord) : bool :=
  selects3 (upto m) full full a p
  || selects3 (from (- m)) full full a p
  || selects3 full (upto m) full a p
  || selects3 full (from (- m)) full a p
  || selects3 full full (upto m) a p
  || selects3 full full (from (- m)) a p.

(** Two neighbours among the nodes [G], and the chains of such steps. *)
Definition step (G : list coord) (p q : coord) : Prop :=
  p ∈ G ∧ q ∈ G ∧ adjacent p q.

(** The components are closed: no voxel of one touches a later one. *)
Definition separated (comps : list (list coord)) : Prop :=
  ∀ i j ci cj x y, (i < j)%nat → comps !! i = Some ci → comps !! j = Some cj →
    x ∈ ci → y ∈ cj → ¬ adjacent x y.

(** The components that [label] finds in [mask_array > 0]. *)
Definition mask_components (a : ndarray Z) : list (list coord) :=
  let fg := foreground (positive a) in components (length fg) fg.

(** The label that [label] gives to a voxel of the mask. *)
Definition mask_label (a : ndarray Z) (p : coord) : nat :=
  label_of (mask_components a) p.

(** The entry of [component_sizes] for a label. *)
Definition component_size (a : ndarray Z) (i : nat) : Z :=
  count_true (imap3 (λ p v, (0 <? v) && bool_decide (mask_label a p = i)) a).

(** A voxel survives the loop when no entry of [component_sizes] below
    the threshold bears its label. *)
Definition survives (threshold : Z) (a : ndarray Z) (p : coord) : bool :=
  forallb (λ e : nat * Z,
             negb ((e.2 <? threshold) && bool_decide (mask_label a p = e.1)))
          ((λ i, (i, component_size a i))
             <$> seq 0 (S (length (mask_components a)))).

(** The number of voxels that are not zero. *)
Definition count_nonzero (a : ndarray Z) : Z :=
  Z.of_nat (length (filter (λ v, v ≠ 0) (ravel a))).

(** The labels of a labelled volume are not negative. *)
Definition labelled (a : ndarray Z) : Prop :=
  ∀ p v, get3 a p = Some v → 0 ≤ v.

(** What the function writes: the image, with the geometry of the mask
    it read, and the answer. *)
Definition answer (msf threshold : Z) (mask : image) : bool :=
  negb (non_zero_voxel_count (cleaned msf threshold (voxels mask)) <? threshold).

Definition written (msf threshold : Z) (mask : image) : image :=
  {| info := info mask;
     voxels :=
       if non_zero_voxel_count (cleaned msf threshold (voxels mask)) <? threshold
       then zeros_like (cleaned msf threshold (voxels mask))
       else cleaned msf threshold (voxels mask) |}.

(** ** Sample volumes *)

(** A cube of side [n] filled by [f]. *)
Definition cube (n : nat) (f : coord → Z) : ndarray Z :=
  imap3 (λ p _, f p) (replicate n (replicate n (replicate n 0))).

(** Side 7: label 5 at the centre, label 2 at a corner.  With a
    threshold of 1 and a scaling factor of 3 the margin is 3 and the
    centre is the only voxel off the border. *)
Definition sample_volume : ndarray Z :=
  cube 7 (λ p, if decide (p = (3, 3, 3)%nat) then 5
               else if decide (p = (0, 0, 0)%nat) then 2 else 0).

Definition sample_image : image :=
  {| info := {| origin := [-10; 0; 25]%Q; spacing := [3; 3; 3]%Q;
                direction := [1; 0; 0; 0; 1; 0; 0; 0; 1]%Q |};
     voxels := sample_volume |}.

Definition sample_files : filesystem :=
  {| files := {[ "mask.nii.gz"%string := sample_image ]}; writes := [] |}.

(** Every connected component has [t] voxels or more. *)
Definition every_component_at_least (t : Z) (a : ndarray Z) : Prop :=
  ∀ p comp, is_foreground a p → component_of a p comp →
    t ≤ Z.of_nat (length comp).

(** No connected component lies in the margin only. *)
Definition no_component_in_margin (m : Z) (a : ndarray Z) : Prop :=
  ∀ p comp, is_foreground a p → component_of a p comp →
    ∃ q, q ∈ comp ∧ in_margin m a q = false.

(** Side 13: one component of two voxels, one of them in the margin.
    With a threshold of 2 and a scaling factor of 3 the margin is 6 and
    the centre is the only voxel off the border. *)
Definition cut_volume : ndarray Z :=
  cube 13 (λ p, if decide (p = (6, 6, 6)%nat) then 1
                else if decide (p = (6, 6, 5)%nat) then 1 else 0).

Definition cut_files : filesystem :=
  {| files := {[ "mask.nii.gz"%string :=
                   {| info := default_metadata; voxels := cut_volume |} ]};
     writes := [] |}.

(** Side 13, no voxel set. *)
Definition blank_volume : ndarray Z := cube 13 (λ _, 0).

Definition blank_files : filesystem :=
  {| files := {[ "mask.nii.gz"%string :=
                   {| info := default_metadata; voxels := blank_volume |} ]};
     writes := [] |}.

(** ** The tables of [lionz/resources.py] and the task numbers *)

Definition AVAILABLE_MODELS : list string := ["fdg"; "psma"]%string.

Definition EXPECTED_MODALITIES : list (string * list string) :=
  [("fdg", ["PT"; "CT"]); ("psma", ["PT"])]%string.

(** A workflow of [TRACER_WORKFLOWS]; the key ['tumor_label'] is absent
    from the workflow of ["psma"]. *)
Record workflow_entry : Type := Workflow {
  tumor_label : option Z;
  channels : list (string * string)
}.

Record tracer_entry : Type := Tracer {
  reference_modality : string;
  tracer_workflows : list (string * workflow_entry)
}.

Definition TRACER_WORKFLOWS : list (string * tracer_entry) :=
  [("fdg"%string,
    {| reference_modality := "PT";
       tracer_workflows :=
         [("pet_ct"%string,
           {| tumor_label := Some 11;
              channels := [("PT", "0000.nii.gz"); ("CT", "0001.nii.gz")]%string
           |})] |});
   ("psma"%string,
    {| reference_modality := "PT";
       tracer_workflows :=
         [("pet"%string,
           {| tumor_label := None;
              channels := [("PT", "0000.nii.gz")]%string |})] |})].

(** An entry of ['voxel_spacing']: a number, or the placeholder text of
    the ["psma"] model. *)
Inductive spacing_value : Type :=
  | SpacingInt (n : Z)
  | SpacingStr (s : string).

Record model_entry : Type := Model {
  url : string;
  filename : string;
  directory : string;
  trainer : string;
  voxel_spacing : list spacing_value;
  multilabel_prefix : string
}.

Definition MODELS : list (string * list model_entry) :=
  [("fdg"%string,
    [ {| url := "https://lionz.s3.eu.cloud-object-storage.appdomain.cloud/clin_pt_fdg_ct_2000epochs.zip";
         filename := "Dataset789_Tumors_all_organs_LION.zip";
         directory := "Dataset789_Tumors_all_organs_LION";
         trainer := "nnUNetTrainerDA5_2000epochs";
         voxel_spacing := [SpacingInt 3; SpacingInt 3; SpacingInt 3];
         multilabel_prefix := "fdg_tumor_01_" |};
      {| url := "https://lionz.s3.eu.cloud-object-storage.appdomain.cloud/clin_pt_fdg_tumor_16082023.zip";
         filename := "Dataset804_Tumors_all_organs.zip";
         directory := "Dataset804_Tumors_all_organs";
         trainer := "nnUNetTrainerDA5";
         voxel_spacing := [SpacingInt 3; SpacingInt 3; SpacingInt 3];
         multilabel_prefix := "fdg_tumor_" |} ]);
   ("psma"%string,
    [ {| url := "PLACEHOLDER_URL_FOR_MODEL";
         filename := "PLACEHOLDER_FILENAME";
         directory := "PLACEHOLDER_DIRECTORY";
         trainer := "PLACEHOLDER_TRAINER";
         voxel_spacing := [SpacingStr "PLACEHOLDER_X";
                           SpacingStr "PLACEHOLDER_Y";
                           SpacingStr "PLACEHOLDER_Z"];
         multilabel_prefix := "PLACEHOLDER_PREFIX" |} ])].

(** [map_model_name_to_task_number]; [None] is the raised exception. *)
Definition map_model_name_to_task_number (model_name : string)
    : option (list (string * string)) :=
  if decide (model_name = "fdg"%string) then
    Some [("pet_ct", "789"); ("pet", "804")]%string
  else if decide (model_name = "psma"%string) then
    Some [("workflow_name_placeholder", "444")]%string
  else None.

(** [check_cuda]: the answer of [torch.cuda.is_available()] is an
    argument; the printed message is left out. *)
Definition check_cuda (cuda_is_available : bool) : string :=
  if negb cuda_is_available then "cpu"%string else "cuda"%string.

(** The keys of a dictionary. *)
Definition keys {V} (d : list (string * V)) : list string := d.*1.

(** * Facts *)

(** ** Arrays: every operation of the function is a pointwise map *)

Lemma imap_imap {X Y W} (g : nat → Y → W) (f : nat → X → Y) (l : list X) :
  imap g (imap f l) = imap (λ i x, g i (f i x)) l.
Proof.
  apply list_eq; intros i. rewrite !list_lookup_imap.
  by destruct (l !! i).
Qed.

Lemma imap_id {X} (l : list X) : imap (λ _ x, x) l = l.
Proof.
  apply list_eq; intros i. rewrite list_lookup_imap. by destruct (l !! i).
Qed.

Lemma zip_with_imap {X Y W V} (f : Y → W → V) (g : nat → X → Y)
    (h : nat → X → W) (l : list X) :
  zip_with f (imap g l) (imap h l) = imap (λ i x, f (g i x) (h i x)) l.
Proof.
  apply list_eq; intros i.
  rewrite lookup_zip_with, !list_lookup_imap. by destruct (l !! i).
Qed.

Lemma get3_imap3 {A B} (f : coord → A → B) (a : ndarray A) p :
  get3 (imap3 f a) p = f p <$> get3 a p.
Proof.
  destruct p as [[i j] k]. unfold get3, imap3.
  rewrite list_lookup_imap. destruct (a !! i) as [plane|]; simpl; [|done].
  rewrite list_lookup_imap. destruct (plane !! j) as [row|]; simpl; [|done].
  by rewrite list_lookup_imap.
Qed.

Lemma imap3_ext {A B} (f g : coord → A → B) (a : ndarray A) :
  (∀ p v, get3 a p = Some v → f p v = g p v) → imap3 f a = imap3 g a.
Proof.
  intros H. unfold imap3.
  apply imap_ext; intros i plane Hi.
  apply imap_ext; intros j row Hj.
  apply imap_ext; intros k v Hk.
  apply H. unfold get3. by rewrite Hi; simpl; rewrite Hj.
Qed.

Lemma imap3_id {A} (a : ndarray A) : imap3 (λ _ v, v) a = a.
Proof.
  unfold imap3. rewrite <- (imap_id a) at 2.
  apply imap_ext; intros i plane _. rewrite <- (imap_id plane) at 2.
  apply imap_ext; intros j row _. apply imap_id.
Qed.

Lemma imap3_fix {A} (f : coord → A → A) (a : ndarray A) :
  (∀ p v, get3 a p = Some v → f p v = v) → imap3 f a = a.
Proof.
  intros H. rewrite <- (imap3_id a) at 2. by apply imap3_ext.
Qed.

Lemma map3_imap3 {A B} (f : A → B) (a : ndarray A) :
  map3 f a = imap3 (λ _, f) a.
Proof.
  unfold map3, imap3. rewrite <- imap_const.
  apply imap_ext; intros i plane _. unfold const. rewrite <- imap_const.
  apply imap_ext; intros j row _. unfold const. by rewrite <- imap_const.
Qed.

Lemma extents_imap3 {A B} (f : coord → A → B) (a : ndarray A) :
  extents (imap3 f a) = extents a.
Proof.
  unfold extents, imap3. rewrite fmap_imap, <- imap_const.
  apply imap_ext; intros i plane _. unfold const; simpl.
  rewrite fmap_imap, <- imap_const.
  apply imap_ext; intros j row _. unfold const; simpl. apply length_imap.
Qed.

Lemma imap3_imap3 {A B C} (g : coord → B → C) (f : coord → A → B)
    (a : ndarray A) :
  imap3 g (imap3 f a) = imap3 (λ p v, g p (f p v)) a.
Proof.
  unfold imap3. rewrite imap_imap.
  apply imap_ext; intros i plane _. rewrite imap_imap.
  apply imap_ext; intros j row _. by rewrite imap_imap.
Qed.

Lemma zip3_imap3 {A B C D} (f : B → C → D) (g : coord → A → B)
    (h : coord → A → C) (a : ndarray A) :
  zip3 f (imap3 g a) (imap3 h a) = imap3 (λ p v, f (g p v) (h p v)) a.
Proof.
  unfold zip3, imap3. rewrite zip_with_imap.
  apply imap_ext; intros i plane _. rewrite zip_with_imap.
  apply imap_ext; intros j row _. by rewrite zip_with_imap.
Qed.

Lemma get3_map3 {A B} (f : A → B) (a : ndarray A) p :
  get3 (map3 f a) p = f <$> get3 a p.
Proof. rewrite map3_imap3. apply get3_imap3. Qed.

(** ** Slices *)

Lemma setitem3_imap3 {A} (s0 s1 s2 : slice) (v : A) (a : ndarray A) :
  setitem3 s0 s1 s2 v a
  = imap3 (λ p x, if selects3 s0 s1 s2 a p then v else x) a.
Proof.
  unfold setitem3, assign, imap3.
  apply imap_ext; intros i plane Hi.
  unfold selects3. rewrite (list_lookup_total_correct _ _ _ Hi).
  destruct (selects (length a) s0 i); simpl.
  - apply imap_ext; intros j row Hj.
    rewrite (list_lookup_total_correct _ _ _ Hj).
    destruct (selects (length plane) s1 j); simpl.
    + done.
    + symmetry. apply imap_id.
  - rewrite <- (imap_id plane) at 1.
    apply imap_ext; intros j row _. symmetry. apply imap_id.
Qed.

Lemma length_imap3_total {A B} (f : coord → A → B) (a : ndarray A) i :
  length (imap3 f a !!! i) = length (a !!! i).
Proof.
  unfold imap3. rewrite !list_lookup_total_alt, list_lookup_imap.
  destruct (a !! i); simpl; [apply length_imap|done].
Qed.

Lemma length_imap3_total2 {A B} (f : coord → A → B) (a : ndarray A) i j :
  length ((imap3 f a !!! i) !!! j) = length ((a !!! i) !!! j).
Proof.
  unfold imap3. rewrite !list_lookup_total_alt, list_lookup_imap.
  destruct (a !! i) as [plane|]; simpl; [|done].
  rewrite list_lookup_imap.
  destruct (plane !! j); simpl; [apply length_imap|done].
Qed.

Lemma selects3_imap3 {A B} s0 s1 s2 (f : coord → A → B) (a : ndarray A) p :
  selects3 s0 s1 s2 (imap3 f a) p = selects3 s0 s1 s2 a p.
Proof.
  destruct p as [[i j] k]. unfold selects3.
  rewrite length_imap3_total, length_imap3_total2.
  unfold imap3. by rewrite length_imap.
Qed.

Lemma setitem3_on_imap3 {A B} s0 s1 s2 (v : B) (f : coord → A → B)
    (a : ndarray A) :
  setitem3 s0 s1 s2 v (imap3 f a)
  = imap3 (λ p x, if selects3 s0 s1 s2 a p then v else f p x) a.
Proof.
  rewrite setitem3_imap3, imap3_imap3.
  apply imap3_ext; intros p x _. by rewrite selects3_imap3.
Qed.

Lemma flush_border_imap3 (m : Z) (a : ndarray Z) :
  flush_border m a = imap3 (λ p v, if flushed m a p then 0 else v) a.
Proof.
  unfold flush_border.
  rewrite (setitem3_imap3 _ _ _ _ a), !setitem3_on_imap3.
  apply imap3_ext; intros p v _. unfold flushed.
  repeat match goal with |- context [selects3 ?x ?y ?z a p] =>
    destruct (selects3 x y z a p) end; reflexivity.
Qed.

Lemma get3_in_range {A} (a : ndarray A) i j k v :
  get3 a (i, j, k) = Some v →
  (i < length a ∧ j < length (a !!! i) ∧ k < length ((a !!! i) !!! j))%nat.
Proof.
  unfold get3. intros H.
  destruct (a !! i) as [plane|] eqn:Hi; simpl in H; [|done].
  destruct (plane !! j) as [row|] eqn:Hj; simpl in H; [|done].
  rewrite (list_lookup_total_correct _ _ _ Hi).
  rewrite (list_lookup_total_correct _ _ _ Hj).
  apply lookup_lt_Some in Hi, Hj, H. done.
Qed.

Ltac slice_bounds :=
  unfold selects, lower, upper, clip, full, upto, from; simpl;
  repeat match goal with
    | |- context [if ?x <? ?y then _ else _] => destruct (Z.ltb_spec x y)
    end;
  repeat match goal with
    | |- context [?x <? ?y] => destruct (Z.ltb_spec x y)
    | |- context [?x <=? ?y] => destruct (Z.leb_spec x y)
    end; simpl; try reflexivity; try lia.

Lemma selects_full (len n : nat) :
  (n < len)%nat → selects len full n = true.
Proof. intros. slice_bounds. Qed.

Lemma selects_upto (len n : nat) (m : Z) :
  0 ≤ m → (n < len)%nat → selects len (upto m) n = (Z.of_nat n <? m).
Proof. intros. slice_bounds. Qed.

Lemma selects_from_neg (len n : nat) (m : Z) :
  0 < m → (n < len)%nat →
  selects len (from (- m)) n = (Z.of_nat len - m <=? Z.of_nat n).
Proof. intros. slice_bounds. Qed.

Lemma selects_from_zero (len n : nat) :
  (n < len)%nat → selects len (from (- 0)) n = true.
Proof. intros. slice_bounds. Qed.

(** With a positive margin the six assignments clear exactly the margin. *)
Lemma flushed_in_margin {A} (m : Z) (a : ndarray A) p v :
  0 < m → get3 a p = Some v → flushed m a p = in_margin m a p.
Proof.
  destruct p as [[i j] k]. intros Hm Hp.
  destruct (get3_in_range _ _ _ _ _ Hp) as (Hi & Hj & Hk).
  unfold flushed, selects3, in_margin.
  rewrite !selects_full, !selects_upto, !selects_from_neg by (done || lia).
  repeat match goal with |- context [Z.ltb ?x ?y] =>
    destruct (Z.ltb x y) end;
  repeat match goal with |- context [Z.leb ?x ?y] =>
    destruct (Z.leb x y) end; reflexivity.
Qed.

(** With a margin of zero, [mask_array[-0:]] is the whole axis. *)
Lemma flushed_zero {A} (a : ndarray A) p v :
  get3 a p = Some v → flushed 0 a p = true.
Proof.
  destruct p as [[i j] k]. intros Hp.
  destruct (get3_in_range _ _ _ _ _ Hp) as (Hi & Hj & Hk).
  unfold flushed, selects3.
  rewrite !selects_full, !selects_from_zero by done.
  by rewrite !orb_true_r.
Qed.

(** ** The elements of an array, in C order *)

Lemma fmap_mjoin {A B} (f : A → B) (ls : list (list A)) :
  f <$> mjoin ls = mjoin (fmap (M := list) (fmap f) ls).
Proof.
  induction ls as [|l ls IH]; [done|].
  simpl. by rewrite fmap_app, IH.
Qed.

Lemma ravel_map3 {A B} (f : A → B) (a : ndarray A) :
  ravel (map3 f a) = f <$> ravel a.
Proof.
  unfold ravel, map3. by rewrite !fmap_mjoin.
Qed.

Lemma ravel_imap3 {A B} (f : coord → A → B) (a : ndarray A) :
  ravel (imap3 f a) = (λ pv, f pv.1 pv.2) <$> indexed a.
Proof.
  unfold indexed. rewrite <- ravel_map3, map3_imap3, imap3_imap3. done.
Qed.

Lemma elem_of_mjoin_imap {A B} (f : nat → A → list B) (l : list A) b :
  b ∈ mjoin (imap f l) ↔ ∃ i x, l !! i = Some x ∧ b ∈ f i x.
Proof.
  rewrite list_elem_of_join. split.
  - intros (k & Hb & Hk). apply elem_of_lookup_imap in Hk as (i & x & -> & Hi).
    eauto.
  - intros (i & x & Hi & Hb). exists (f i x). split; [done|].
    apply elem_of_lookup_imap. eauto.
Qed.

Lemma NoDup_mjoin_imap {A B} (f : nat → A → list B) (l : list A) :
  (∀ i x, l !! i = Some x → NoDup (f i x)) →
  (∀ i j x y b, l !! i = Some x → l !! j = Some y →
     b ∈ f i x → b ∈ f j y → i = j) →
  NoDup (mjoin (imap f l)).
Proof.
  revert f. induction l as [|x l IH]; intros f Hnd Hdisj; [constructor|].
  rewrite imap_cons. simpl. apply NoDup_app. split_and!.
  - by apply (Hnd 0%nat).
  - intros b Hb (j & y & Hj & Hby)%elem_of_mjoin_imap.
    specialize (Hdisj 0%nat (S j) x y b eq_refl Hj Hb Hby). done.
  - apply IH.
    + intros i y Hi. by apply (Hnd (S i)).
    + intros i j y z b Hi Hj Hb1 Hb2.
      specialize (Hdisj (S i) (S j) y z b Hi Hj Hb1 Hb2). lia.
Qed.

Lemma mjoin_mjoin_imap {A B} (f : nat → A → list (list B)) (l : list A) :
  mjoin (mjoin (imap f l)) = mjoin (imap (λ i x, mjoin (f i x)) l).
Proof.
  revert f. induction l as [|x l IH]; intros f; [done|].
  rewrite !imap_cons. simpl. by rewrite join_app, IH.
Qed.

Lemma indexed_unfold {A} (a : ndarray A) :
  indexed a
  = mjoin (imap (λ i plane,
      mjoin (imap (λ j row, imap (λ k v, ((i, j, k), v)) row) plane)) a).
Proof. unfold indexed, ravel, imap3. by rewrite mjoin_mjoin_imap. Qed.

Lemma elem_of_indexed {A} (a : ndarray A) p v :
  (p, v) ∈ indexed a ↔ get3 a p = Some v.
Proof.
  rewrite indexed_unfold, elem_of_mjoin_imap. unfold get3. split.
  - intros (i & plane & Hi & (j & row & Hj & Hk)%elem_of_mjoin_imap).
    apply elem_of_lookup_imap in Hk as (k & w & [= -> ->] & Hk).
    by rewrite Hi; simpl; rewrite Hj.
  - destruct p as [[i j] k]. intros H.
    destruct (a !! i) as [plane|] eqn:Hi; simpl in H; [|done].
    destruct (plane !! j) as [row|] eqn:Hj; simpl in H; [|done].
    exists i, plane. split; [done|]. apply elem_of_mjoin_imap.
    exists j, row. split; [done|]. apply elem_of_lookup_imap. eauto.
Qed.

Lemma NoDup_indexed {A} (a : ndarray A) : NoDup (indexed a).
Proof.
  rewrite indexed_unfold. apply NoDup_mjoin_imap.
  - intros i plane _. apply NoDup_mjoin_imap.
    + intros j row _. apply NoDup_alt. intros k1 k2 x.
      rewrite !list_lookup_imap. intros H1 H2.
      destruct (row !! k1), (row !! k2); simplify_eq/=. done.
    + intros j1 j2 r1 r2 b _ _.
      intros (k1 & v1 & -> & _)%elem_of_lookup_imap.
      intros (k2 & v2 & [= ? ?] & _)%elem_of_lookup_imap. done.
  - intros i1 i2 p1 p2 b _ _.
    intros (j1 & r1 & _ & (k1 & v1 & -> & _)%elem_of_lookup_imap)%elem_of_mjoin_imap.
    intros (j2 & r2 & _ & (k2 & v2 & [= ? ?] & _)%elem_of_lookup_imap)%elem_of_mjoin_imap.
    done.
Qed.

Lemma NoDup_indexed_fst {A} (a : ndarray A) : NoDup (indexed a).*1.
Proof.
  apply NoDup_fmap_fst; [|apply NoDup_indexed].
  intros p v1 v2 H1%elem_of_indexed H2%elem_of_indexed. congruence.
Qed.

Lemma filter_fmap {A B} (f : A → B) (P : B → Prop) `{∀ x, Decision (P x)}
    (l : list A) :
  filter P (f <$> l) = f <$> filter (λ x, P (f x)) l.
Proof.
  induction l as [|x l IH]; [done|].
  rewrite fmap_cons, !filter_cons. destruct (decide (P (f x))); simpl;
    by rewrite IH.
Qed.

Lemma count_true_imap3 {A} (f : coord → A → bool) (a : ndarray A) :
  count_true (imap3 f a)
  = Z.of_nat (length (filter (λ pv, f pv.1 pv.2 = true) (indexed a))).
Proof.
  unfold count_true. by rewrite ravel_imap3, filter_fmap, length_fmap.
Qed.

(** ** Connected components *)

Lemma adjacent_sym p q : adjacent p q = adjacent q p.
Proof.
  destruct p as [[i j] k], q as [[i' j'] k']. unfold adjacent, dist.
  f_equal. lia.
Qed.

Lemma step_sym G p q : step G p q → step G q p.
Proof. unfold step. rewrite (adjacent_sym q p). tauto. Qed.

Lemma rtc_sym {A} (R : relation A) x y :
  (∀ x y, R x y → R y x) → rtc R x y → rtc R y x.
Proof.
  intros Hsym. induction 1 as [|x y z Hxy _ IH]; [done|].
  eapply rtc_r; eauto.
Qed.

Lemma length_filter_complement {A} (P : A → Prop) `{∀ x, Decision (P x)}
    (l : list A) :
  (length (filter P l) + length (filter (λ x, ¬ P x) l) = length l)%nat.
Proof.
  rewrite <- length_app. by rewrite filter_app_complement.
Qed.

(** [grow] collects voxels joined to the seed, and leaves no neighbour of
    the collected voxels behind. *)
Lemma grow_spec (G : list coord) (seed : coord) fuel :
  ∀ todo rest acc,
  (length todo + length rest ≤ fuel)%nat →
  (∀ x, x ∈ acc ++ todo → x ∈ G ∧ rtc (step G) seed x) →
  (∀ x, x ∈ rest → x ∈ G) →
  (∀ x y, x ∈ acc → y ∈ rest → ¬ adjacent x y) →
  (∀ x, x ∈ (grow fuel todo rest acc).1 → x ∈ G ∧ rtc (step G) seed x) ∧
  (∀ x y, x ∈ (grow fuel todo rest acc).1 →
          y ∈ (grow fuel todo rest acc).2 → ¬ adjacent x y) ∧
  (grow fuel todo rest acc).1 ++ (grow fuel todo rest acc).2
    ≡ₚ acc ++ todo ++ rest.
Proof.
  induction fuel as [|fuel IH]; intros todo rest acc Hfuel Hsound Hrest Hclosed.
  - destruct todo; [|simpl in Hfuel; lia]. simpl.
    rewrite app_nil_r in Hsound. done.
  - destruct todo as [|p todo]; simpl.
    { rewrite app_nil_r in Hsound. done. }
    pose proof (length_filter_complement (λ q, adjacent p q) rest) as Hlen.
    destruct (IH (todo ++ filter (λ q, adjacent p q) rest)
                 (filter (λ q, ¬ adjacent p q) rest) (p :: acc))
      as (H1 & H2 & H3).
    + rewrite length_app. simpl in Hfuel. lia.
    + intros x Hx. rewrite app_assoc in Hx.
      apply elem_of_app in Hx as [Hx|Hx].
      * apply Hsound. apply elem_of_app in Hx as [Hx|Hx].
        -- apply elem_of_cons in Hx as [->|Hx];
             rewrite elem_of_app, elem_of_cons; tauto.
        -- rewrite elem_of_app, elem_of_cons; tauto.
      * apply list_elem_of_filter in Hx as [Hadj Hx].
        destruct (Hsound p) as [Hp Hrp].
        { rewrite elem_of_app, elem_of_cons. tauto. }
        split; [by apply Hrest|].
        eapply rtc_r; [done|]. split_and!; auto.
    + intros x [_ Hx]%list_elem_of_filter. auto.
    + intros x y Hx [Hadj Hy]%list_elem_of_filter.
      apply elem_of_cons in Hx as [->|Hx]; [done|]. by apply Hclosed.
    + split_and!; [done..|]. rewrite H3.
      rewrite <- (filter_app_complement (λ q, adjacent p q) rest) at 3.
      simpl. rewrite <- !app_assoc.
      rewrite <- Permutation_middle. done.
Qed.

Lemma grow_acc fuel : ∀ todo rest acc x,
  x ∈ acc → x ∈ (grow fuel todo rest acc).1.
Proof.
  induction fuel as [|fuel IH]; intros todo rest acc x Hx; [done|].
  destruct todo as [|p todo]; [done|]. simpl.
  apply IH. by apply list_elem_of_further.
Qed.

(** The components partition the nodes, every one is joined to its first
    voxel, and no two of them touch. *)
Lemma components_spec (G : list coord) fuel : ∀ nodes,
  (length nodes ≤ fuel)%nat →
  (∀ x, x ∈ nodes → x ∈ G) →
  mjoin (components fuel nodes) ≡ₚ nodes ∧
  Forall (λ c, ∃ seed, ∀ x, x ∈ c → rtc (step G) seed x)
         (components fuel nodes) ∧
  separated (components fuel nodes).
Proof.
  induction fuel as [|fuel IH]; intros nodes Hfuel HG.
  { destruct nodes; [|simpl in Hfuel; lia].
    split_and!; [done|constructor|intros i j ci cj x y _ Hi; done]. }
  destruct nodes as [|p rest].
  { split_and!; [done|constructor|intros i j ci cj x y _ Hi; done]. }
  cbn [components].
  set (cr := grow (length (p :: rest)) [p] rest []).
  destruct (grow_spec G p (length (p :: rest)) [p] rest []) as (H1 & H2 & H3).
  - simpl. lia.
  - intros x Hx. simpl in Hx. apply list_elem_of_singleton in Hx as ->.
    split; [apply HG; left|done].
  - intros x Hx. apply HG. by right.
  - intros x y Hx. by apply elem_of_nil in Hx.
  - fold cr in H1, H2, H3. simpl in H3.
    assert (p ∈ cr.1) as Hp.
    { unfold cr. simpl. apply grow_acc. left. }
    assert (length cr.2 ≤ fuel)%nat as Hlen.
    { apply Permutation_length in H3. rewrite length_app in H3.
      simpl in H3, Hfuel. destruct (cr.1); [by apply elem_of_nil in Hp|].
      simpl in H3. lia. }
    destruct (IH cr.2 Hlen) as (I1 & I2 & I3).
    { intros x Hx. apply HG. rewrite <- H3. apply elem_of_app. by right. }
    simpl. split_and!.
    + by rewrite I1.
    + constructor; [|done]. exists p. intros x Hx. by apply H1.
    + intros i j ci cj x y Hij Hi Hj Hx Hy.
      destruct j as [|j]; [lia|]. simpl in Hj.
      destruct i as [|i]; simpl in Hi.
      * injection Hi as <-. apply H2; [done|].
        rewrite <- I1. apply list_elem_of_join. exists cj.
        split; [done|]. by eapply list_elem_of_lookup_2.
      * apply (I3 i j ci cj); [lia|done..].
Qed.

Lemma mjoin_NoDup_unique {A} (ls : list (list A)) : ∀ i j ci cj x,
  NoDup (mjoin ls) → ls !! i = Some ci → ls !! j = Some cj →
  x ∈ ci → x ∈ cj → i = j.
Proof.
  induction ls as [|l ls IH]; intros i j ci cj x Hnd Hi Hj Hxi Hxj; [done|].
  simpl in Hnd. apply NoDup_app in Hnd as (_ & Hdisj & Hnd).
  assert (∀ k c, ls !! k = Some c → x ∈ c → x ∈ mjoin ls) as Hin.
  { intros k c Hk Hx. apply list_elem_of_join. exists c.
    split; [done|]. by eapply list_elem_of_lookup_2. }
  destruct i as [|i], j as [|j]; simpl in Hi, Hj; simplify_eq.
  - done.
  - exfalso. eapply Hdisj; eauto.
  - exfalso. eapply Hdisj; eauto.
  - f_equal. eauto.
Qed.

Lemma mjoin_NoDup_lookup {A} (ls : list (list A)) i c :
  NoDup (mjoin ls) → ls !! i = Some c → NoDup c.
Proof.
  revert i. induction ls as [|l ls IH]; intros i Hnd Hi; [done|].
  simpl in Hnd. apply NoDup_app in Hnd as (Hl & _ & Hnd).
  destruct i; simpl in Hi; simplify_eq; eauto.
Qed.

Lemma label_of_lookup (comps : list (list coord)) i c p :
  NoDup (mjoin comps) → comps !! i = Some c → p ∈ c →
  label_of comps p = S i.
Proof.
  intros Hnd Hi Hp. unfold label_of.
  assert (list_find (λ c, p ∈ c) comps = Some (i, c)) as ->; [|done].
  apply list_find_Some. split_and!; [done..|].
  intros j y Hj Hlt Hy.
  pose proof (mjoin_NoDup_unique comps i j c y p Hnd Hi Hj Hp Hy). lia.
Qed.

Lemma label_of_succ (comps : list (list coord)) i p :
  label_of comps p = S i → ∃ c, comps !! i = Some c ∧ p ∈ c.
Proof.
  unfold label_of. destruct (list_find _ comps) as [[j c]|] eqn:Hf; [|done].
  simpl. intros [= ->]. apply list_find_Some in Hf as (? & ? & _). eauto.
Qed.

Lemma label_of_zero (comps : list (list coord)) p :
  label_of comps p = 0%nat ↔ p ∉ mjoin comps.
Proof.
  unfold label_of. rewrite list_elem_of_join. split.
  - destruct (list_find _ comps) as [[j c]|] eqn:Hf; [done|].
    intros _ (c & Hp & Hc). apply list_find_None in Hf.
    rewrite Forall_forall in Hf. by apply (Hf c).
  - intros Hno. destruct (list_find _ comps) as [[j c]|] eqn:Hf; [|done].
    apply list_find_Some in Hf as (Hj & Hp & _). destruct Hno.
    exists c. split; [done|]. by eapply list_elem_of_lookup_2.
Qed.

(** ** The components of a mask *)

Lemma elem_of_foreground (a : ndarray Z) p :
  p ∈ foreground (positive a) ↔ is_foreground a p.
Proof.
  unfold foreground, is_foreground. rewrite list_elem_of_fmap. split.
  - intros ([q b] & -> & [Hb Hq]%list_elem_of_filter). simpl in *. subst b.
    apply elem_of_indexed in Hq. unfold positive in Hq.
    rewrite get3_map3 in Hq. destruct (get3 a q) as [v|]; [|done].
    exists v. split; [done|]. simpl in Hq. injection Hq as Hq. lia.
  - intros (v & Hv & Hpos). exists (p, true). split; [done|].
    apply list_elem_of_filter. split; [done|].
    apply elem_of_indexed. unfold positive. rewrite get3_map3, Hv. simpl.
    f_equal. lia.
Qed.

Lemma NoDup_foreground (b : ndarray bool) : NoDup (foreground b).
Proof.
  unfold foreground. apply NoDup_fmap_2_strong.
  - intros [p v] [q w] [_ Hp%elem_of_indexed]%list_elem_of_filter
      [_ Hq%elem_of_indexed]%list_elem_of_filter. simpl. intros ->.
    congruence.
  - apply NoDup_filter, NoDup_indexed.
Qed.

Lemma mask_components_spec (a : ndarray Z) :
  mjoin (mask_components a) ≡ₚ foreground (positive a) ∧
  Forall (λ c, ∃ seed, ∀ x, x ∈ c →
            rtc (step (foreground (positive a))) seed x)
         (mask_components a) ∧
  separated (mask_components a).
Proof. apply components_spec; done. Qed.

Lemma NoDup_mask_components (a : ndarray Z) :
  NoDup (mjoin (mask_components a)).
Proof.
  destruct (mask_components_spec a) as (-> & _). apply NoDup_foreground.
Qed.

Lemma linked_step (a : ndarray Z) p q :
  linked a p q ↔ step (foreground (positive a)) p q.
Proof. unfold linked, step. by rewrite !elem_of_foreground. Qed.

Lemma rtc_linked_step (a : ndarray Z) p q :
  rtc (linked a) p q ↔ rtc (step (foreground (positive a))) p q.
Proof.
  split; apply rtc_subrel; intros x y; apply linked_step.
Qed.

(** Every voxel of the foreground lies in one of the components. *)
Lemma mask_components_cover (a : ndarray Z) p :
  is_foreground a p → ∃ i c, mask_components a !! i = Some c ∧ p ∈ c.
Proof.
  intros Hp%elem_of_foreground.
  destruct (mask_components_spec a) as (Hperm & _).
  rewrite <- Hperm in Hp. apply list_elem_of_join in Hp as (c & Hp & Hc).
  apply list_elem_of_lookup_1 in Hc as (i & Hi). eauto.
Qed.

Lemma mask_components_foreground (a : ndarray Z) i c p :
  mask_components a !! i = Some c → p ∈ c → is_foreground a p.
Proof.
  intros Hi Hp. apply elem_of_foreground.
  destruct (mask_components_spec a) as (Hperm & _).
  rewrite <- Hperm. apply list_elem_of_join. exists c.
  split; [done|]. by eapply list_elem_of_lookup_2.
Qed.

(** A component is closed under the steps. *)
Lemma mask_components_closed (a : ndarray Z) i c p q :
  mask_components a !! i = Some c → p ∈ c →
  rtc (linked a) p q → q ∈ c.
Proof.
  intros Hi Hp Hpq. induction Hpq as [|p z q Hpz _ IH]; [done|].
  apply IH. destruct Hpz as (Hfp & Hfz & Hadj).
  destruct (mask_components_cover a z Hfz) as (j & c' & Hj & Hz).
  destruct (mask_components_spec a) as (_ & _ & Hsep).
  destruct (Nat.lt_total i j) as [Hlt|[->|Hlt]].
  - destruct (Hsep i j c c' p z Hlt Hi Hj Hp Hz Hadj).
  - congruence.
  - rewrite adjacent_sym in Hadj.
    destruct (Hsep j i c' c z p Hlt Hj Hi Hz Hp Hadj).
Qed.

(** The voxels of a component are joined to each other. *)
Lemma mask_components_joined (a : ndarray Z) i c p q :
  mask_components a !! i = Some c → p ∈ c → q ∈ c → rtc (linked a) p q.
Proof.
  intros Hi Hp Hq.
  destruct (mask_components_spec a) as (_ & Hall & _).
  rewrite Forall_forall in Hall.
  destruct (Hall c) as (seed & Hseed); [by eapply list_elem_of_lookup_2|].
  apply rtc_linked_step. etrans; [|by apply Hseed].
  apply rtc_sym; [apply step_sym|]. by apply Hseed.
Qed.

(** The components that [label] finds are the connected components. *)
Lemma component_of_lookup (a : ndarray Z) i c p :
  mask_components a !! i = Some c → p ∈ c → component_of a p c.
Proof.
  intros Hi Hp. split.
  - eapply mjoin_NoDup_lookup; [apply NoDup_mask_components|done].
  - intros q. unfold connected. split.
    + intros Hq. split; [by eapply mask_components_foreground|].
      by eapply mask_components_joined.
    + intros [_ Hpq]. by eapply mask_components_closed.
Qed.

Lemma component_of_exists (a : ndarray Z) p :
  is_foreground a p → ∃ comp, component_of a p comp.
Proof.
  intros (i & c & Hi & Hp)%mask_components_cover.
  exists c. by eapply component_of_lookup.
Qed.

Lemma component_of_length (a : ndarray Z) p c1 c2 :
  component_of a p c1 → component_of a p c2 → length c1 = length c2.
Proof.
  intros [Hnd1 H1] [Hnd2 H2]. apply Permutation_length.
  apply NoDup_Permutation; [done..|]. intros q. by rewrite H1, H2.
Qed.

(** ** The removal of the small components, voxel by voxel *)

Lemma zip3_imap3_r {A B C} (f : A → B → C) (h : coord → A → B)
    (a : ndarray A) :
  zip3 f a (imap3 h a) = imap3 (λ p v, f v (h p v)) a.
Proof. rewrite <- (imap3_id a) at 1. by rewrite zip3_imap3. Qed.

Lemma positive_imap3 (a : ndarray Z) :
  positive a = imap3 (λ _ v, 0 <? v) a.
Proof. apply map3_imap3. Qed.

Lemma label_positive (a : ndarray Z) :
  label (positive a)
  = (imap3 (λ p _, mask_label a p) a, length (mask_components a)).
Proof.
  unfold label, mask_label, mask_components. cbv zeta. f_equal.
  generalize (components (length (foreground (positive a)))
                         (foreground (positive a))) as comps.
  intros comps. by rewrite positive_imap3, imap3_imap3.
Qed.

Lemma nd_sum_positive (a : ndarray Z) (index : list nat) :
  nd_sum (positive a) (imap3 (λ p _, mask_label a p) a) index
  = component_size a <$> index.
Proof.
  unfold nd_sum, component_size. apply list_fmap_ext; intros _ i _.
  by rewrite positive_imap3, zip3_imap3.
Qed.

Lemma enumerate_fmap_seq {B} (f : nat → B) (n : nat) :
  imap pair (f <$> seq 0 n) = (λ i, (i, f i)) <$> seq 0 n.
Proof.
  apply list_eq; intros i. rewrite list_lookup_imap, !list_lookup_fmap.
  destruct (seq 0 n !! i) as [x|] eqn:Hx; [|done]. simpl.
  apply lookup_seq in Hx as [-> _]. done.
Qed.

Lemma foldl_mask_out {A} (threshold : Z) (lab : coord → nat)
    (a : ndarray A) (entries : list (nat * Z)) : ∀ g : coord → A → bool,
  foldl (mask_out threshold (imap3 (λ p _, lab p) a)) (imap3 g a) entries
  = imap3 (λ p v, g p v &&
      forallb (λ e : nat * Z,
                 negb ((e.2 <? threshold) && bool_decide (lab p = e.1)))
              entries) a.
Proof.
  induction entries as [|e entries IH]; intros g; simpl.
  - apply imap3_ext; intros p v _. by rewrite andb_true_r.
  - assert (mask_out threshold (imap3 (λ p _, lab p) a) (imap3 g a) e
            = imap3 (λ p v, g p v
                && negb ((e.2 <? threshold) && bool_decide (lab p = e.1))) a)
      as ->.
    { unfold mask_out, clear_label. destruct (e.2 <? threshold); simpl.
      - rewrite zip3_imap3. apply imap3_ext; intros p v _.
        destruct (bool_decide (lab p = e.1)); simpl;
          [by rewrite andb_false_r|by rewrite andb_true_r].
      - apply imap3_ext; intros p v _. by rewrite andb_true_r. }
    rewrite IH. apply imap3_ext; intros p v _. by rewrite andb_assoc.
Qed.

(** The function removes a voxel unless it is positive and survives. *)
Lemma remove_small_components_imap3 (threshold : Z) (a : ndarray Z) :
  remove_small_components threshold a
  = imap3 (λ p v, v * (if (0 <? v) && survives threshold a p then 1 else 0)) a.
Proof.
  unfold remove_small_components. rewrite label_positive.
  rewrite nd_sum_positive, enumerate_fmap_seq.
  rewrite positive_imap3 at 1. rewrite foldl_mask_out.
  unfold multiply. by rewrite zip3_imap3_r.
Qed.

Lemma component_size_lookup (a : ndarray Z) i c :
  mask_components a !! i = Some c →
  component_size a (S i) = Z.of_nat (length c).
Proof.
  intros Hi. unfold component_size. rewrite count_true_imap3. f_equal.
  rewrite <- (length_fmap fst). apply Permutation_length, NoDup_Permutation.
  - apply NoDup_fmap_2_strong; [|apply NoDup_filter, NoDup_indexed].
    intros [p v] [q w] [_ Hp%elem_of_indexed]%list_elem_of_filter
      [_ Hq%elem_of_indexed]%list_elem_of_filter. simpl. intros ->.
    congruence.
  - eapply mjoin_NoDup_lookup; [apply NoDup_mask_components|done].
  - intros q. rewrite list_elem_of_fmap. split.
    + intros ([q' v] & -> & [HP _]%list_elem_of_filter). simpl in *.
      apply andb_true_iff in HP as [_ Hl%bool_decide_eq_true].
      apply label_of_succ in Hl as (c' & Hc' & Hq). congruence.
    + intros Hq.
      destruct (mask_components_foreground a i c q Hi Hq) as (v & Hv & Hpos).
      exists (q, v). split; [done|]. apply list_elem_of_filter.
      split; [|by apply elem_of_indexed]. simpl.
      apply andb_true_iff. split; [lia|]. apply bool_decide_eq_true.
      by apply (label_of_lookup _ i c); [apply NoDup_mask_components|..].
Qed.

Lemma forallb_entries (threshold : Z) (size : nat → Z) (l n : nat) :
  forallb (λ e : nat * Z,
             negb ((e.2 <? threshold) && bool_decide (l = e.1)))
          ((λ i, (i, size i)) <$> seq 0 n)
  = if decide (l < n)%nat then negb (size l <? threshold) else true.
Proof.
  induction n as [|n IH]; [done|].
  rewrite seq_S, fmap_app, forallb_app, IH. simpl.
  destruct (decide (l < n)%nat), (decide (l < S n)%nat); try lia.
  - rewrite bool_decide_eq_false_2 by lia.
    by rewrite andb_false_r, andb_true_r.
  - assert (l = n) as -> by lia. rewrite bool_decide_eq_true_2 by done.
    by rewrite !andb_true_r.
  - rewrite bool_decide_eq_false_2 by lia. by rewrite andb_false_r.
Qed.

Lemma survives_lookup (threshold : Z) (a : ndarray Z) i c p :
  mask_components a !! i = Some c → p ∈ c →
  survives threshold a p = negb (Z.of_nat (length c) <? threshold).
Proof.
  intros Hi Hp. unfold survives. rewrite forallb_entries.
  assert (mask_label a p = S i) as ->.
  { by apply (label_of_lookup _ i c); [apply NoDup_mask_components|..]. }
  apply lookup_lt_Some in Hi as Hlt.
  rewrite decide_True by lia. by rewrite (component_size_lookup a i c).
Qed.

Lemma get3_remove_small_components (threshold : Z) (a : ndarray Z) p v :
  get3 a p = Some v →
  get3 (remove_small_components threshold a) p
  = Some (v * (if (0 <? v) && survives threshold a p then 1 else 0)).
Proof.
  intros Hv. by rewrite remove_small_components_imap3, get3_imap3, Hv.
Qed.

(** A voxel of the foreground is kept or cleared by the size of its
    connected component. *)
Lemma remove_small_components_foreground (threshold : Z) (a : ndarray Z)
    p v comp :
  get3 a p = Some v → 0 < v → component_of a p comp →
  get3 (remove_small_components threshold a) p
  = Some (if Z.of_nat (length comp) <? threshold then 0 else v).
Proof.
  intros Hv Hpos Hcomp.
  destruct (mask_components_cover a p) as (i & c & Hi & Hp).
  { by exists v. }
  rewrite (get3_remove_small_components _ _ _ _ Hv).
  rewrite (survives_lookup _ _ _ _ _ Hi Hp).
  rewrite (component_of_length a p comp c Hcomp
             (component_of_lookup a i c p Hi Hp)).
  f_equal. destruct (Z.ltb_spec 0 v); [|lia]. simpl.
  destruct (Z.of_nat (length c) <? threshold); simpl; lia.
Qed.

(** A voxel of the background is cleared. *)
Lemma remove_small_components_background (threshold : Z) (a : ndarray Z)
    p v :
  get3 a p = Some v → v ≤ 0 →
  get3 (remove_small_components threshold a) p = Some 0.
Proof.
  intros Hv Hneg. rewrite (get3_remove_small_components _ _ _ _ Hv).
  f_equal. destruct (Z.ltb_spec 0 v); [lia|]. simpl. lia.
Qed.

(** ** The function as a whole *)

Lemma get3_flush_border (m : Z) (a : ndarray Z) p v :
  get3 a p = Some v →
  get3 (flush_border m a) p = Some (if flushed m a p then 0 else v).
Proof. intros Hv. by rewrite flush_border_imap3, get3_imap3, Hv. Qed.

Lemma extents_flush_border (m : Z) (a : ndarray Z) :
  extents (flush_border m a) = extents a.
Proof. rewrite flush_border_imap3. apply extents_imap3. Qed.

Lemma extents_remove_small_components (t : Z) (a : ndarray Z) :
  extents (remove_small_components t a) = extents a.
Proof. rewrite remove_small_components_imap3. apply extents_imap3. Qed.

Lemma extents_cleaned (msf t : Z) (a : ndarray Z) :
  extents (cleaned msf t a) = extents a.
Proof.
  unfold cleaned.
  by rewrite extents_remove_small_components, extents_flush_border.
Qed.

Lemma extents_zeros_like (a : ndarray Z) : extents (zeros_like a) = extents a.
Proof. unfold zeros_like. rewrite map3_imap3. apply extents_imap3. Qed.

Lemma all_zero_zeros_like (a : ndarray Z) : all_zero (zeros_like a).
Proof.
  intros p v. unfold zeros_like. rewrite get3_map3.
  destruct (get3 a p); simpl; congruence.
Qed.

Lemma extents_written (msf t : Z) (mask : image) :
  extents (voxels (written msf t mask)) = extents (voxels mask).
Proof.
  unfold written. simpl. destruct (_ <? _).
  - by rewrite extents_zeros_like, extents_cleaned.
  - apply extents_cleaned.
Qed.

(** The function raises only when there is no image to read; otherwise it
    writes once, at the path it read. *)
Lemma has_label_above_threshold_eq (msf : Z) (path : string) (t : Z)
    (fs : filesystem) (mask : image) :
  files fs !! path = Some mask →
  has_label_above_threshold msf path t fs
  = Some (answer msf t mask, WriteImage (written msf t mask) path fs).
Proof.
  intros Hmask. unfold has_label_above_threshold, ReadImage.
  rewrite Hmask. simpl. unfold GetArrayFromImage, answer, written.
  destruct (_ <? _); simpl; unfold CopyInformation, GetImageFromArray; simpl.
  - rewrite decide_True; [done|].
    by rewrite extents_zeros_like, extents_cleaned.
  - rewrite decide_True; [done|]. apply extents_cleaned.
Qed.

Lemma has_label_above_threshold_missing (msf : Z) (path : string) (t : Z)
    (fs : filesystem) :
  files fs !! path = None → has_label_above_threshold msf path t fs = None.
Proof.
  intros Hmask. unfold has_label_above_threshold, ReadImage.
  by rewrite Hmask.
Qed.

(** Every voxel of the cleaned array is the voxel of the flushed array or
    zero, and none is negative. *)
Lemma get3_cleaned (msf t : Z) (a : ndarray Z) p v :
  get3 a p = Some v →
  ∃ w, get3 (cleaned msf t a) p = Some w ∧ (w = 0 ∨ (w = v ∧ 0 < v)).
Proof.
  intros Hv. unfold cleaned.
  pose proof (get3_flush_border (msf * t) a p v Hv) as Hf.
  rewrite (get3_remove_small_components _ _ _ _ Hf).
  eexists. split; [done|].
  destruct (flushed (msf * t) a p); [left; lia|].
  destruct (Z.ltb_spec 0 v); simpl; [|left; lia].
  destruct (survives _ _ _); [right|left]; lia.
Qed.

Lemma get3_extents {A B} (a : ndarray A) (b : ndarray B) p :
  extents a = extents b → is_Some (get3 a p) → is_Some (get3 b p).
Proof.
  destruct p as [[i j] k]. unfold extents, get3. intros He [v Hv].
  destruct (a !! i) as [pa|] eqn:Hi; simpl in Hv; [|done].
  destruct (pa !! j) as [ra|] eqn:Hj; simpl in Hv; [|done].
  assert (fmap (M := list) (fmap (M := list) length) a !! i
          = Some (length <$> pa)) as H1 by by rewrite list_lookup_fmap, Hi.
  rewrite He, list_lookup_fmap in H1.
  destruct (b !! i) as [pb|]; simpl in *; [|done]. injection H1 as H1.
  assert ((length <$> pa) !! j = Some (length ra)) as H2
    by by rewrite list_lookup_fmap, Hj.
  rewrite <- H1, list_lookup_fmap in H2.
  destruct (pb !! j) as [rb|]; simpl in *; [|done]. injection H2 as H2.
  apply lookup_lt_is_Some. rewrite H2. by eapply lookup_lt_Some.
Qed.

(** ** Counting voxels *)

Lemma ravel_indexed {A} (a : ndarray A) : ravel a = (indexed a).*2.
Proof. rewrite <- (imap3_id a) at 1. by rewrite ravel_imap3. Qed.

Lemma non_zero_voxel_count_indexed (a : ndarray Z) :
  non_zero_voxel_count a
  = Z.of_nat (length (filter (λ pv, 0 < pv.2) (indexed a))).
Proof.
  unfold non_zero_voxel_count. rewrite positive_imap3, count_true_imap3.
  f_equal. f_equal. apply list_filter_iff. intros [p v]. simpl. lia.
Qed.

Lemma count_nonzero_indexed (a : ndarray Z) :
  count_nonzero a = Z.of_nat (length (filter (λ pv, pv.2 ≠ 0) (indexed a))).
Proof.
  unfold count_nonzero. by rewrite ravel_indexed, filter_fmap, length_fmap.
Qed.

Lemma list_filter_iff_strong {A} (P1 P2 : A → Prop)
    `{∀ x, Decision (P1 x)} `{∀ x, Decision (P2 x)} (l : list A) :
  (∀ x, x ∈ l → P1 x ↔ P2 x) → filter P1 l = filter P2 l.
Proof.
  induction l as [|x l IH]; intros HP; [done|].
  rewrite !filter_cons.
  destruct (decide (P1 x)), (decide (P2 x)).
  - f_equal. apply IH. intros y Hy. apply HP. by right.
  - exfalso. apply n, HP; [left|done].
  - exfalso. apply n, HP; [left|done].
  - apply IH. intros y Hy. apply HP. by right.
Qed.

(** Where no voxel is negative, the voxels counted by [np.sum(mask_array
    > 0)] are the voxels that are not zero. *)
Lemma non_zero_voxel_count_nonzero (a : ndarray Z) :
  labelled a → non_zero_voxel_count a = count_nonzero a.
Proof.
  intros Hlab. rewrite non_zero_voxel_count_indexed, count_nonzero_indexed.
  f_equal. f_equal. apply list_filter_iff_strong.
  intros [p v] Hpv%elem_of_indexed. simpl. apply Hlab in Hpv. lia.
Qed.

Lemma filter_none {A} (P : A → Prop) `{∀ x, Decision (P x)} (l : list A) :
  (∀ x, x ∈ l → ¬ P x) → filter P l = [].
Proof.
  induction l as [|x l IH]; intros HP; [done|].
  rewrite filter_cons. destruct (decide (P x)) as [Hx|_].
  - destruct (HP x); [left|done].
  - apply IH. intros y Hy. apply HP. by right.
Qed.

Lemma all_zero_count (a : ndarray Z) :
  all_zero a → non_zero_voxel_count a = 0.
Proof.
  intros Hz. rewrite non_zero_voxel_count_indexed, filter_none; [done|].
  intros [p v] Hpv%elem_of_indexed. simpl. apply Hz in Hpv. lia.
Qed.

Lemma labelled_cleaned (msf t : Z) (a : ndarray Z) :
  labelled (cleaned msf t a).
Proof.
  intros p w Hw.
  destruct (get3_extents (cleaned msf t a) a p) as [v Hv].
  { apply extents_cleaned. }
  { by exists w. }
  destruct (get3_cleaned msf t a p v Hv) as (w' & Hw' & Hcase).
  rewrite Hw in Hw'. injection Hw' as <-. lia.
Qed.

Lemma non_zero_voxel_count_foreground (a : ndarray Z) :
  non_zero_voxel_count a = Z.of_nat (length (foreground (positive a))).
Proof.
  unfold non_zero_voxel_count, count_true, foreground.
  by rewrite ravel_indexed, filter_fmap, !length_fmap.
Qed.

(** A component has no more voxels than the mask has positive voxels. *)
Lemma component_of_count (a : ndarray Z) p comp :
  component_of a p comp → Z.of_nat (length comp) ≤ non_zero_voxel_count a.
Proof.
  intros [Hnd Hcomp]. rewrite non_zero_voxel_count_foreground.
  apply inj_le, submseteq_length, NoDup_submseteq; [done|].
  intros q Hq%Hcomp. apply elem_of_foreground.
  destruct Hq as [Hp Hpq]. clear Hcomp.
  induction Hpq as [|x y z Hxy _ IH]; [done|]. apply IH. apply Hxy.
Qed.

(** * The validation rule *)

(** C1. The function answers [true] exactly when at least [threshold]
    voxels are not zero after the border flush and the removal of the
    small components; when fewer are left it answers [false] and the
    volume it writes is zero everywhere. *)
Theorem has_label_above_threshold_count (msf : Z) (path : string) (t : Z)
    (fs : filesystem) (mask : image) :
  files fs !! path = Some mask →
  ∃ b fs' img,
    has_label_above_threshold msf path t fs = Some (b, fs') ∧
    files fs' !! path = Some img ∧
    (b = true ↔ t ≤ count_nonzero (cleaned msf t (voxels mask))) ∧
    (count_nonzero (cleaned msf t (voxels mask)) < t →
       b = false ∧ all_zero (voxels img)).
Proof.
  intros Hmask.
  exists (answer msf t mask), (WriteImage (written msf t mask) path fs),
    (written msf t mask).
  split; [by apply has_label_above_threshold_eq|].
  split; [apply lookup_insert_eq|].
  unfold answer, written. simpl.
  rewrite <- (non_zero_voxel_count_nonzero _ (labelled_cleaned msf t _)).
  destruct (Z.ltb_spec (non_zero_voxel_count (cleaned msf t (voxels mask))) t);
    simpl.
  - split; [split; [done|lia]|]. intros _. split; [done|].
    apply all_zero_zeros_like.
  - split; [done|lia].
Qed.

Lemma has_label_above_threshold_count_witness :
  ∃ b fs' img,
    has_label_above_threshold 3 "mask.nii.gz" 1 sample_files = Some (b, fs') ∧
    files fs' !! "mask.nii.gz"%string = Some img ∧
    (b = true ↔ 1 ≤ count_nonzero (cleaned 3 1 (voxels sample_image))) ∧
    (count_nonzero (cleaned 3 1 (voxels sample_image)) < 1 →
       b = false ∧ all_zero (voxels img)).
Proof.
  apply (has_label_above_threshold_count 3 "mask.nii.gz" 1 sample_files
           sample_image).
  reflexivity.
Defined.

(** C4. Whatever the answer, the function writes once, at the path it
    read, and the image written has the origin, the spacing, the
    direction and the size of the image read. *)
Theorem has_label_above_threshold_writes (msf : Z) (path : string) (t : Z)
    (fs : filesystem) (mask : image) :
  files fs !! path = Some mask →
  ∃ b img,
    has_label_above_threshold msf path t fs
    = Some (b, {| files := <[path := img]> (files fs);
                  writes := writes fs ++ [path] |}) ∧
    info img = info mask ∧
    extents (voxels img) = extents (voxels mask).
Proof.
  intros Hmask. exists (answer msf t mask), (written msf t mask).
  split; [by apply has_label_above_threshold_eq|].
  split; [done|apply extents_written].
Qed.

Lemma has_label_above_threshold_writes_witness :
  ∃ b img,
    has_label_above_threshold 3 "mask.nii.gz" 1 sample_files
    = Some (b, {| files := <["mask.nii.gz"%string := img]> (files sample_files);
                  writes := writes sample_files ++ ["mask.nii.gz"%string] |}) ∧
    info img = info sample_image ∧
    extents (voxels img) = extents (voxels sample_image).
Proof.
  apply (has_label_above_threshold_writes 3 "mask.nii.gz" 1 sample_files
           sample_image).
  reflexivity.
Defined.

(** C10. Every voxel of the volume written is the voxel of the volume
    read, or zero; the two volumes have the same size. *)
Theorem has_label_above_threshold_only_clears (msf : Z) (path : string)
    (t : Z) (fs : filesystem) (mask : image) :
  files fs !! path = Some mask →
  ∃ b fs' img,
    has_label_above_threshold msf path t fs = Some (b, fs') ∧
    files fs' !! path = Some img ∧
    extents (voxels img) = extents (voxels mask) ∧
    ∀ p v, get3 (voxels mask) p = Some v →
      get3 (voxels img) p = Some v ∨ get3 (voxels img) p = Some 0.
Proof.
  intros Hmask.
  exists (answer msf t mask), (WriteImage (written msf t mask) path fs),
    (written msf t mask).
  split; [by apply has_label_above_threshold_eq|].
  split; [apply lookup_insert_eq|].
  split; [apply extents_written|].
  intros p v Hv.
  destruct (get3_cleaned msf t _ p v Hv) as (w & Hw & Hcase).
  unfold written. simpl. destruct (_ <? _).
  - right. unfold zeros_like. by rewrite get3_map3, Hw.
  - rewrite Hw. destruct Hcase as [->|[-> _]]; auto.
Qed.

Lemma has_label_above_threshold_only_clears_witness :
  ∃ b fs' img,
    has_label_above_threshold 3 "mask.nii.gz" 1 sample_files = Some (b, fs') ∧
    files fs' !! "mask.nii.gz"%string = Some img ∧
    extents (voxels img) = extents (voxels sample_image) ∧
    ∀ p v, get3 (voxels sample_image) p = Some v →
      get3 (voxels img) p = Some v ∨ get3 (voxels img) p = Some 0.
Proof.
  apply (has_label_above_threshold_only_clears 3 "mask.nii.gz" 1
           sample_files sample_image).
  reflexivity.
Defined.

(** C2. With a positive threshold (and a positive scaling factor) the
    function first clears every voxel that lies less than
    [margin = MARGIN_SCALING_FACTOR * threshold] voxels from one of the six
    faces and leaves the other voxels as they are; the connected component
    analysis runs on that array, and a voxel of the margin is zero in the
    volume written.  Nothing is asked of the components of the volume. *)
Theorem has_label_above_threshold_flushes_border (msf : Z) (path : string)
    (t : Z) (fs : filesystem) (mask : image) (p : coord) (v : Z) :
  0 < msf → 0 < t →
  files fs !! path = Some mask →
  get3 (voxels mask) p = Some v →
  get3 (flush_border (msf * t) (voxels mask)) p
    = Some (if in_margin (msf * t) (voxels mask) p then 0 else v) ∧
  cleaned msf t (voxels mask)
    = remove_small_components t (flush_border (msf * t) (voxels mask)) ∧
  ∃ b fs' img,
    has_label_above_threshold msf path t fs = Some (b, fs') ∧
    files fs' !! path = Some img ∧
    (in_margin (msf * t) (voxels mask) p = true →
       get3 (voxels img) p = Some 0).
Proof.
  intros Hmsf Ht Hmask Hv.
  assert (get3 (flush_border (msf * t) (voxels mask)) p
          = Some (if in_margin (msf * t) (voxels mask) p then 0 else v)) as Hf.
  { rewrite (get3_flush_border _ _ _ _ Hv).
    by rewrite (flushed_in_margin _ _ _ v) by (done || lia). }
  split; [done|]. split; [done|].
  exists (answer msf t mask), (WriteImage (written msf t mask) path fs),
    (written msf t mask).
  split; [by apply has_label_above_threshold_eq|].
  split; [apply lookup_insert_eq|].
  intros Hin. rewrite Hin in Hf.
  assert (get3 (cleaned msf t (voxels mask)) p = Some 0) as Hc.
  { unfold cleaned. by apply (remove_small_components_background _ _ _ 0). }
  unfold written. simpl. destruct (_ <? _); [|done].
  unfold zeros_like. by rewrite get3_map3, Hc.
Qed.

Lemma has_label_above_threshold_flushes_border_witness :
  get3 (flush_border (3 * 1) (voxels sample_image)) (0, 0, 0)%nat
    = Some (if in_margin (3 * 1) (voxels sample_image) (0, 0, 0)%nat
            then 0 else 2) ∧
  cleaned 3 1 (voxels sample_image)
    = remove_small_components 1 (flush_border (3 * 1) (voxels sample_image)) ∧
  ∃ b fs' img,
    has_label_above_threshold 3 "mask.nii.gz" 1 sample_files = Some (b, fs') ∧
    files fs' !! "mask.nii.gz"%string = Some img ∧
    (in_margin (3 * 1) (voxels sample_image) (0, 0, 0)%nat = true →
       get3 (voxels img) (0, 0, 0)%nat = Some 0).
Proof.
  apply (has_label_above_threshold_flushes_border 3 "mask.nii.gz" 1
           sample_files sample_image (0, 0, 0)%nat 2).
  - lia.
  - lia.
  - reflexivity.
  - reflexivity.
Defined.

(** C3. After the border flush, a positive voxel whose connected component
    has fewer than [threshold] voxels is cleared, and a positive voxel whose
    component has [threshold] voxels or more keeps its value. *)
Theorem cleaned_by_component_size (msf t : Z) (a : ndarray Z) (p : coord)
    (v : Z) (comp : list coord) :
  get3 (flush_border (msf * t) a) p = Some v →
  0 < v →
  component_of (flush_border (msf * t) a) p comp →
  get3 (cleaned msf t a) p
    = Some (if Z.of_nat (length comp) <? t then 0 else v).
Proof.
  intros Hv Hpos Hcomp. unfold cleaned.
  by apply remove_small_components_foreground.
Qed.

Lemma cleaned_by_component_size_witness :
  get3 (cleaned 3 1 sample_volume) (3, 3, 3)%nat
    = Some (if Z.of_nat (length [(3, 3, 3)%nat]) <? 1 then 0 else 5).
Proof.
  apply (cleaned_by_component_size 3 1 sample_volume (3, 3, 3)%nat 5
           [(3, 3, 3)%nat]).
  - reflexivity.
  - lia.
  - apply (component_of_lookup _ 0%nat); [reflexivity|left].
Defined.

Lemma all_zero_remove_small_components (t : Z) (a : ndarray Z) :
  all_zero a → all_zero (remove_small_components t a).
Proof.
  intros Hz p w Hw.
  destruct (get3_extents (remove_small_components t a) a p) as [v Hv].
  { apply extents_remove_small_components. }
  { by exists w. }
  rewrite (get3_remove_small_components _ _ _ _ Hv) in Hw.
  injection Hw as <-. rewrite (Hz p v Hv). lia.
Qed.

Lemma all_zero_flush_border (m : Z) (a : ndarray Z) :
  (∀ p v, get3 a p = Some v → flushed m a p = true) →
  all_zero (flush_border m a).
Proof.
  intros Hfl p w Hw.
  destruct (get3_extents (flush_border m a) a p) as [v Hv].
  { apply extents_flush_border. }
  { by exists w. }
  rewrite (get3_flush_border _ _ _ _ Hv), (Hfl p v Hv) in Hw. congruence.
Qed.

(** Once the border flush has cleared the whole array, nothing is counted
    and the volume written is zero everywhere. *)
Lemma has_label_above_threshold_blank (msf : Z) (path : string) (t : Z)
    (fs : filesystem) (mask : image) :
  files fs !! path = Some mask →
  all_zero (flush_border (msf * t) (voxels mask)) →
  has_label_above_threshold msf path t fs
    = Some (negb (0 <? t), WriteImage (written msf t mask) path fs) ∧
  all_zero (voxels (written msf t mask)).
Proof.
  intros Hmask Hz.
  assert (all_zero (cleaned msf t (voxels mask))) as Hc
    by by apply all_zero_remove_small_components.
  rewrite (has_label_above_threshold_eq _ _ _ _ _ Hmask).
  unfold answer, written. simpl. rewrite (all_zero_count _ Hc).
  split; [done|]. destruct (0 <? t); [apply all_zero_zeros_like|done].
Qed.

(** C9. With a threshold of zero the margin is zero, [mask_array[-0:]] is
    the whole axis, and the border flush clears the whole array; zero is
    not less than zero, so the function answers [true] and writes a volume
    that is zero everywhere. *)
Theorem has_label_above_threshold_zero_threshold (msf : Z) (path : string)
    (fs : filesystem) (mask : image) :
  files fs !! path = Some mask →
  all_zero (flush_border (msf * 0) (voxels mask)) ∧
  ∃ fs' img,
    has_label_above_threshold msf path 0 fs = Some (true, fs') ∧
    files fs' !! path = Some img ∧
    all_zero (voxels img).
Proof.
  intros Hmask.
  assert (all_zero (flush_border (msf * 0) (voxels mask))) as Hz.
  { apply all_zero_flush_border. intros p v Hv.
    rewrite Z.mul_0_r. by apply (flushed_zero _ _ v). }
  split; [done|].
  destruct (has_label_above_threshold_blank msf path 0 fs mask Hmask Hz)
    as [Heq Hall].
  exists (WriteImage (written msf 0 mask) path fs), (written msf 0 mask).
  split; [done|]. split; [apply lookup_insert_eq|done].
Qed.

Lemma has_label_above_threshold_zero_threshold_witness :
  all_zero (flush_border (3 * 0) (voxels sample_image)) ∧
  ∃ fs' img,
    has_label_above_threshold 3 "mask.nii.gz" 0 sample_files
      = Some (true, fs') ∧
    files fs' !! "mask.nii.gz"%string = Some img ∧
    all_zero (voxels img).
Proof.
  apply (has_label_above_threshold_zero_threshold 3 "mask.nii.gz"
           sample_files sample_image).
  reflexivity.
Defined.

Lemma has_shape_in_range {A} (a : ndarray A) d0 d1 d2 i j k v :
  has_shape a d0 d1 d2 → get3 a (i, j, k) = Some v →
  length a = d0 ∧ length (a !!! i) = d1 ∧ length ((a !!! i) !!! j) = d2 ∧
  (i < d0 ∧ j < d1 ∧ k < d2)%nat.
Proof.
  intros [H0 Hall] Hv.
  pose proof (get3_in_range _ _ _ _ _ Hv) as (Hi & Hj & Hk).
  unfold get3 in Hv.
  destruct (a !! i) as [plane|] eqn:Ei; simpl in Hv; [|done].
  destruct (plane !! j) as [row|] eqn:Ej; simpl in Hv; [|done].
  rewrite (list_lookup_total_correct _ _ _ Ei) in *.
  rewrite (list_lookup_total_correct _ _ _ Ej) in *.
  rewrite Forall_lookup in Hall. destruct (Hall i plane Ei) as [H1 Hrows].
  rewrite Forall_lookup in Hrows. pose proof (Hrows j row Ej) as H2.
  lia.
Qed.

(** C7. With a positive threshold, a margin that reaches the extent of
    one of the axes selects that whole axis: no assignment raises, the
    border flush clears the whole array, and the function answers [false]
    and writes a volume that is zero everywhere. *)
Theorem has_label_above_threshold_margin_covers (msf : Z) (path : string)
    (t : Z) (fs : filesystem) (mask : image) (d0 d1 d2 : nat) :
  0 < t →
  files fs !! path = Some mask →
  has_shape (voxels mask) d0 d1 d2 →
  Z.of_nat d0 ≤ msf * t ∨ Z.of_nat d1 ≤ msf * t ∨ Z.of_nat d2 ≤ msf * t →
  all_zero (flush_border (msf * t) (voxels mask)) ∧
  ∃ fs' img,
    has_label_above_threshold msf path t fs = Some (false, fs') ∧
    files fs' !! path = Some img ∧
    all_zero (voxels img).
Proof.
  intros Ht Hmask Hshape Hcover.
  assert (all_zero (flush_border (msf * t) (voxels mask))) as Hz.
  { apply all_zero_flush_border. intros [[i j] k] v Hv.
    destruct (has_shape_in_range _ _ _ _ _ _ _ _ Hshape Hv)
      as (H0 & H1 & H2 & Hi & Hj & Hk).
    rewrite (flushed_in_margin _ _ _ v) by (done || lia).
    unfold in_margin. rewrite H0, H1, H2.
    repeat match goal with |- context [Z.ltb ?x ?y] =>
      destruct (Z.ltb_spec x y) end;
    repeat match goal with |- context [Z.leb ?x ?y] =>
      destruct (Z.leb_spec x y) end; simpl; try reflexivity; lia. }
  split; [done|].
  destruct (has_label_above_threshold_blank msf path t fs mask Hmask Hz)
    as [Heq Hall].
  exists (WriteImage (written msf t mask) path fs), (written msf t mask).
  split; [|split; [apply lookup_insert_eq|done]].
  rewrite Heq. destruct (Z.ltb_spec 0 t); [done|lia].
Qed.

Lemma has_label_above_threshold_margin_covers_witness :
  all_zero (flush_border (3 * 3) (voxels sample_image)) ∧
  ∃ fs' img,
    has_label_above_threshold 3 "mask.nii.gz" 3 sample_files
      = Some (false, fs') ∧
    files fs' !! "mask.nii.gz"%string = Some img ∧
    all_zero (voxels img).
Proof.
  apply (has_label_above_threshold_margin_covers 3 "mask.nii.gz" 3
           sample_files sample_image 7 7 7).
  - lia.
  - reflexivity.
  - split; [reflexivity|]. repeat constructor.
  - lia.
Defined.

(** * The rule table *)

(** C8. Every rule of [RULES] binds a validation function to its keyword
    arguments and gives both [action_on_true] and [action_on_false], each
    one of ["stop"] and ["continue"]. *)
Theorem RULES_entries_complete (msf : Z) (tracer workflow : string)
    (workflows : list (string * list (string * rule_value)))
    (rule : list (string * rule_value)) :
  getitem (RULES msf) tracer = Some workflows →
  getitem workflows workflow = Some rule →
  (∃ func kwargs, getitem rule "rule_func" = Some (RuleFunc func kwargs)) ∧
  (∃ act, getitem rule "action_on_true" = Some (Str act) ∧
          (act = "stop"%string ∨ act = "continue"%string)) ∧
  (∃ act, getitem rule "action_on_false" = Some (Str act) ∧
          (act = "stop"%string ∨ act = "continue"%string)).
Proof.
  unfold RULES. simpl. intros Htracer Hworkflow.
  destruct (decide ("fdg"%string = tracer)); [|done].
  injection Htracer as <-. simpl in Hworkflow.
  destruct (decide ("pet_ct"%string = workflow)); [|done].
  injection Hworkflow as <-.
  split_and!; [by eexists _, _|by eexists; split; [|left]..].
Qed.

Lemma RULES_entries_complete_witness :
  (∃ func kwargs,
     getitem [("rule_func"%string,
               RuleFunc (has_label_above_threshold 3)
                        [("threshold"%string, 10)]);
              ("action_on_true"%string, Str "stop");
              ("action_on_false"%string, Str "stop")] "rule_func"
     = Some (RuleFunc func kwargs)) ∧
  (∃ act,
     getitem [("rule_func"%string,
               RuleFunc (has_label_above_threshold 3)
                        [("threshold"%string, 10)]);
              ("action_on_true"%string, Str "stop");
              ("action_on_false"%string, Str "stop")] "action_on_true"
     = Some (Str act) ∧ (act = "stop"%string ∨ act = "continue"%string)) ∧
  (∃ act,
     getitem [("rule_func"%string,
               RuleFunc (has_label_above_threshold 3)
                        [("threshold"%string, 10)]);
              ("action_on_true"%string, Str "stop");
              ("action_on_false"%string, Str "stop")] "action_on_false"
     = Some (Str act) ∧ (act = "stop"%string ∨ act = "continue"%string)).
Proof.
  apply (RULES_entries_complete 3 "fdg" "pet_ct"
           [("pet_ct"%string,
             [("rule_func"%string,
               RuleFunc (has_label_above_threshold 3)
                        [("threshold"%string, 10)]);
              ("action_on_true"%string, Str "stop");
              ("action_on_false"%string, Str "stop")])]).
  - reflexivity.
  - reflexivity.
Defined.

(** ** Running the function again *)

Lemma linked_sym (a : ndarray Z) p q : linked a p q → linked a q p.
Proof. unfold linked. rewrite (adjacent_sym q p). tauto. Qed.

Lemma connected_foreground (a : ndarray Z) p q :
  connected a p q → is_foreground a q.
Proof.
  intros [Hp Hpq]. induction Hpq as [|x y z Hxy _ IH]; [done|].
  apply IH, Hxy.
Qed.

Lemma connected_sym (a : ndarray Z) p q : connected a p q → connected a q p.
Proof.
  intros Hpq. split; [by eapply connected_foreground|].
  apply rtc_sym; [apply linked_sym|apply Hpq].
Qed.

Lemma connected_trans (a : ndarray Z) p q r :
  connected a p q → connected a q r → connected a p r.
Proof. intros [Hp Hpq] [_ Hqr]. split; [done|by etrans]. Qed.

(** Two voxels of one component have the same component. *)
Lemma component_of_connected (a : ndarray Z) p q comp :
  component_of a p comp → connected a p q → component_of a q comp.
Proof.
  intros [Hnd Hcomp] Hpq. split; [done|]. intros r. rewrite Hcomp. split.
  - intros Hpr. eapply connected_trans; [by apply connected_sym|done].
  - intros Hqr. by eapply connected_trans.
Qed.

Lemma get3_remove_small_components_inv (t : Z) (a : ndarray Z) p w :
  get3 (remove_small_components t a) p = Some w →
  ∃ v, get3 a p = Some v ∧ (w = 0 ∨ (w = v ∧ 0 < v)).
Proof.
  intros Hw.
  destruct (get3_extents (remove_small_components t a) a p) as [v Hv].
  { apply extents_remove_small_components. }
  { by exists w. }
  exists v. split; [done|].
  rewrite (get3_remove_small_components _ _ _ _ Hv) in Hw.
  injection Hw as <-.
  destruct (Z.ltb_spec 0 v); simpl; [|left; lia].
  destruct (survives _ _ _); [right|left]; lia.
Qed.

(** A voxel that is left after the removal belongs to a component that
    the removal keeps whole. *)
Lemma remove_small_components_keeps_component (t : Z) (a : ndarray Z)
    p w comp :
  get3 (remove_small_components t a) p = Some w → 0 < w →
  component_of a p comp →
  (Z.of_nat (length comp) <? t) = false ∧
  ∀ q, connected a p q →
    ∃ v, get3 a q = Some v ∧ 0 < v ∧
         get3 (remove_small_components t a) q = Some v.
Proof.
  intros Hw Hpos Hcomp.
  destruct (get3_remove_small_components_inv _ _ _ _ Hw)
    as (v & Hv & [->|[-> Hv0]]); [lia|].
  pose proof (remove_small_components_foreground t a p v comp Hv Hv0 Hcomp)
    as Hkeep.
  rewrite Hw in Hkeep.
  destruct (Z.of_nat (length comp) <? t) eqn:Hlt;
    [injection Hkeep as ->; lia|].
  split; [done|]. intros q Hq.
  destruct (connected_foreground a p q Hq) as (u & Hu & Hu0).
  exists u. split_and!; [done..|].
  rewrite (remove_small_components_foreground t a q u comp Hu Hu0
             (component_of_connected a p q comp Hcomp Hq)).
  by rewrite Hlt.
Qed.

(** The components of the result are the components that were kept. *)
Lemma component_of_remove_small_components (t : Z) (a : ndarray Z)
    p w comp :
  get3 (remove_small_components t a) p = Some w → 0 < w →
  component_of a p comp →
  component_of (remove_small_components t a) p comp.
Proof.
  intros Hw Hpos Hcomp.
  destruct (remove_small_components_keeps_component t a p w comp Hw Hpos Hcomp)
    as [_ Hkept].
  assert (∀ x, connected a p x →
            is_foreground (remove_small_components t a) x) as Hfg.
  { intros x (v & _ & Hv0 & Hv)%Hkept. by exists v. }
  assert (∀ x, is_foreground (remove_small_components t a) x →
            is_foreground a x) as Hback.
  { intros x (u & Hu & Hu0).
    destruct (get3_remove_small_components_inv _ _ _ _ Hu)
      as (v & Hv & [->|[-> Hv0]]); [lia|]. by exists v. }
  destruct Hcomp as [Hnd Hcomp]. split; [done|]. intros q.
  rewrite Hcomp. split.
  - intros [Hp Hpq]. split; [by apply Hfg; split; [|constructor]|].
    assert (∀ x, rtc (linked a) x q → connected a p x →
              rtc (linked (remove_small_components t a)) x q) as Hgen.
    { intros x Hxq. induction Hxq as [|x y z Hxy _ IH]; intros Hpx;
        [constructor|].
      assert (connected a p y) as Hpy.
      { eapply connected_trans; [done|].
        split; [apply Hxy|]. by apply rtc_once. }
      eapply rtc_l; [|by apply IH].
      split_and!; [by apply Hfg|by apply Hfg|apply Hxy]. }
    apply Hgen; [done|]. split; [done|constructor].
  - intros [Hp Hpq]. split; [by apply Hback|].
    eapply rtc_subrel; [|done].
    intros x y (Hx & Hy & Hadj). split_and!; auto.
Qed.

(** Removing the small components a second time removes nothing. *)
Lemma remove_small_components_idempotent (t : Z) (a : ndarray Z) :
  remove_small_components t (remove_small_components t a)
  = remove_small_components t a.
Proof.
  rewrite (remove_small_components_imap3 t (remove_small_components t a)).
  apply imap3_fix. intros p w Hw.
  destruct (get3_remove_small_components_inv _ _ _ _ Hw)
    as (v & Hv & [->|[-> Hv0]]); [lia|].
  destruct (component_of_exists a p) as [comp Hcomp]; [by exists v|].
  pose proof (component_of_remove_small_components t a p v comp Hw Hv0 Hcomp)
    as Hcomp'.
  destruct (remove_small_components_keeps_component t a p v comp Hw Hv0 Hcomp)
    as [Hlen _].
  pose proof (remove_small_components_foreground t _ p v comp Hw Hv0 Hcomp')
    as H1.
  rewrite (get3_remove_small_components _ _ _ _ Hw), Hlen in H1.
  by injection H1.
Qed.

Lemma selects3_extents {A B} s0 s1 s2 (a : ndarray A) (b : ndarray B) p :
  extents a = extents b → selects3 s0 s1 s2 a p = selects3 s0 s1 s2 b p.
Proof.
  intros He. destruct p as [[i j] k]. unfold selects3.
  assert (∀ {X} (x : ndarray X),
            length x = length (extents x) ∧
            length (x !!! i) = length (extents x !!! i) ∧
            length ((x !!! i) !!! j) = (extents x !!! i) !!! j) as Hlen.
  { intros X x. unfold extents. rewrite length_fmap.
    rewrite !list_lookup_total_alt, !list_lookup_fmap.
    destruct (x !! i) as [plane|]; simpl; [|done].
    rewrite length_fmap, list_lookup_fmap.
    by destruct (plane !! j). }
  destruct (Hlen _ a) as (-> & -> & ->).
  destruct (Hlen _ b) as (-> & -> & ->). by rewrite He.
Qed.

Lemma flushed_extents {A B} (m : Z) (a : ndarray A) (b : ndarray B) p :
  extents a = extents b → flushed m a p = flushed m b p.
Proof. intros He. unfold flushed. by rewrite !(selects3_extents _ _ _ a b). Qed.

(** The border of the cleaned array is clear already. *)
Lemma flush_border_cleaned (msf t : Z) (a : ndarray Z) :
  flush_border (msf * t) (cleaned msf t a) = cleaned msf t a.
Proof.
  rewrite flush_border_imap3. apply imap3_fix. intros p w Hw.
  rewrite (flushed_extents _ _ a) by apply extents_cleaned.
  destruct (flushed (msf * t) a p) eqn:Hfl; [|done].
  destruct (get3_extents (cleaned msf t a) a p) as [v Hv].
  { apply extents_cleaned. }
  { by exists w. }
  pose proof (get3_flush_border (msf * t) a p v Hv) as Hf.
  rewrite Hfl in Hf. unfold cleaned in Hw.
  rewrite (remove_small_components_background _ _ _ 0 Hf) in Hw by lia.
  congruence.
Qed.

Lemma cleaned_idempotent (msf t : Z) (a : ndarray Z) :
  cleaned msf t (cleaned msf t a) = cleaned msf t a.
Proof.
  unfold cleaned at 1. rewrite flush_border_cleaned.
  unfold cleaned. apply remove_small_components_idempotent.
Qed.

(** C6. When the function has answered [true], a second call with the same
    threshold on the volume it wrote answers [true] again and writes the
    same image: no further voxel is removed. *)
Theorem has_label_above_threshold_idempotent (msf : Z) (path : string)
    (t : Z) (fs fs' : filesystem) :
  has_label_above_threshold msf path t fs = Some (true, fs') →
  ∃ fs'',
    has_label_above_threshold msf path t fs' = Some (true, fs'') ∧
    files fs'' = files fs'.
Proof.
  intros Hfirst.
  destruct (files fs !! path) as [mask|] eqn:Hmask;
    [|by rewrite has_label_above_threshold_missing in Hfirst].
  rewrite (has_label_above_threshold_eq _ _ _ _ _ Hmask) in Hfirst.
  injection Hfirst as Hanswer <-.
  assert (written msf t mask
          = {| info := info mask; voxels := cleaned msf t (voxels mask) |})
    as Hwritten.
  { unfold answer in Hanswer. unfold written.
    by destruct (_ <? _). }
  assert (files (WriteImage (written msf t mask) path fs) !! path
          = Some (written msf t mask)) as Hmask' by apply lookup_insert_eq.
  rewrite (has_label_above_threshold_eq _ _ _ _ _ Hmask').
  assert (answer msf t (written msf t mask) = true) as ->.
  { unfold answer. rewrite Hwritten. simpl. by rewrite cleaned_idempotent. }
  assert (written msf t (written msf t mask) = written msf t mask) as ->.
  { rewrite Hwritten at 2. rewrite <- Hwritten.
    unfold written at 1. rewrite Hwritten. simpl.
    rewrite cleaned_idempotent.
    unfold answer in Hanswer. by destruct (_ <? _). }
  eexists. split; [done|]. simpl. apply insert_insert_eq.
Qed.

Lemma has_label_above_threshold_idempotent_witness :
  ∃ fs'',
    has_label_above_threshold 3 "mask.nii.gz" 1
      (WriteImage (written 3 1 sample_image) "mask.nii.gz" sample_files)
      = Some (true, fs'') ∧
    files fs''
    = files (WriteImage (written 3 1 sample_image) "mask.nii.gz" sample_files).
Proof.
  apply (has_label_above_threshold_idempotent 3 "mask.nii.gz" 1 sample_files).
  reflexivity.
Defined.

(** ** Volumes whose components are all large *)

Lemma labelled_cube (n : nat) (f : coord → Z) :
  (∀ p, 0 ≤ f p) → labelled (cube n f).
Proof.
  intros Hf p v. unfold cube. rewrite get3_imap3.
  destruct (get3 _ p); simpl; [|done]. intros [= <-]. apply Hf.
Qed.

Lemma labelled_flush_border (m : Z) (a : ndarray Z) :
  labelled a → labelled (flush_border m a).
Proof.
  intros Hlab p w Hw.
  destruct (get3_extents (flush_border m a) a p) as [v Hv].
  { apply extents_flush_border. }
  { by exists w. }
  rewrite (get3_flush_border _ _ _ _ Hv) in Hw. apply Hlab in Hv.
  destruct (flushed m a p); injection Hw as <-; lia.
Qed.

(** Where every component has [t] voxels, the removal changes nothing. *)
Lemma remove_small_components_full (t : Z) (a : ndarray Z) :
  labelled a → every_component_at_least t a →
  remove_small_components t a = a.
Proof.
  intros Hlab Hfull. rewrite remove_small_components_imap3.
  apply imap3_fix. intros p v Hv.
  destruct (Z.ltb_spec 0 v) as [Hpos|Hneg]; simpl.
  - destruct (component_of_exists a p) as [comp Hcomp]; [by exists v|].
    pose proof (remove_small_components_foreground t a p v comp Hv Hpos Hcomp)
      as H1.
    rewrite (get3_remove_small_components _ _ _ _ Hv) in H1.
    assert ((Z.of_nat (length comp) <? t) = false) as Hlen.
    { apply Z.ltb_ge, (Hfull p comp); [by exists v|done]. }
    rewrite Hlen in H1. injection H1 as H1.
    destruct (Z.ltb_spec 0 v); [done|lia].
  - apply Hlab in Hv. lia.
Qed.

(** C5, as the code has it.  For a volume without negative voxels: when,
    after the border flush, at least one positive voxel is left and every
    connected component of the flushed array has [threshold] voxels or
    more, the function answers [true] and the volume written is the
    border-flushed input, at every voxel. *)
Theorem has_label_above_threshold_keeps_full_components (msf : Z)
    (path : string) (t : Z) (fs : filesystem) (mask : image) :
  files fs !! path = Some mask →
  labelled (voxels mask) →
  every_component_at_least t (flush_border (msf * t) (voxels mask)) →
  (∃ p, is_foreground (flush_border (msf * t) (voxels mask)) p) →
  ∃ fs' img,
    has_label_above_threshold msf path t fs = Some (true, fs') ∧
    files fs' !! path = Some img ∧
    voxels img = flush_border (msf * t) (voxels mask).
Proof.
  intros Hmask Hlab Hfull [p Hp].
  assert (cleaned msf t (voxels mask) = flush_border (msf * t) (voxels mask))
    as Hclean.
  { unfold cleaned. apply remove_small_components_full; [|done].
    by apply labelled_flush_border. }
  assert ((non_zero_voxel_count (cleaned msf t (voxels mask)) <? t) = false)
    as Hcount.
  { rewrite Hclean. apply Z.ltb_ge.
    destruct (component_of_exists _ p Hp) as [comp Hcomp].
    etrans; [by apply (Hfull p comp)|by eapply component_of_count]. }
  exists (WriteImage (written msf t mask) path fs), (written msf t mask).
  rewrite (has_label_above_threshold_eq _ _ _ _ _ Hmask).
  unfold answer, written. rewrite Hcount. simpl.
  split; [done|]. split; [apply lookup_insert_eq|done].
Qed.

Lemma every_component_at_least_one (a : ndarray Z) :
  every_component_at_least 1 a.
Proof.
  intros p comp Hp [_ Hcomp].
  assert (p ∈ comp) as Hin by (apply Hcomp; split; [done|constructor]).
  destruct comp; [by apply elem_of_nil in Hin|]. simpl. lia.
Qed.

Lemma has_label_above_threshold_keeps_full_components_witness :
  ∃ fs' img,
    has_label_above_threshold 3 "mask.nii.gz" 1 sample_files
      = Some (true, fs') ∧
    files fs' !! "mask.nii.gz"%string = Some img ∧
    voxels img = flush_border (3 * 1) (voxels sample_image).
Proof.
  apply (has_label_above_threshold_keeps_full_components 3 "mask.nii.gz" 1
           sample_files sample_image).
  - reflexivity.
  - apply labelled_cube. intros p. repeat case_decide; lia.
  - apply every_component_at_least_one.
  - exists (3, 3, 3)%nat, 5. split; [reflexivity|lia].
Defined.

Lemma mask_components_cut_volume :
  mask_components cut_volume = [[(6, 6, 6)%nat; (6, 6, 5)%nat]].
Proof. vm_compute. reflexivity. Qed.

Lemma component_of_cut_volume p comp :
  is_foreground cut_volume p → component_of cut_volume p comp →
  length comp = 2%nat ∧ (6, 6, 6)%nat ∈ comp.
Proof.
  intros Hp Hcomp.
  destruct (mask_components_cover _ p Hp) as (i & c & Hi & Hpc).
  rewrite mask_components_cut_volume in Hi.
  destruct i as [|i]; [|done]. injection Hi as <-.
  assert (component_of cut_volume p [(6, 6, 6)%nat; (6, 6, 5)%nat]) as Hc.
  { apply (component_of_lookup _ 0%nat);
      [by rewrite mask_components_cut_volume|done]. }
  split; [by apply (component_of_length _ p _ _ Hcomp Hc)|].
  apply Hcomp, Hc. left.
Qed.

(** C5, as the specification words it, fails.  In [cut_volume] the one
    component has two voxels, the threshold, and reaches off the margin;
    the border flush cuts it down to one voxel, which is then removed, and
    the function answers [false].  In [blank_volume] there is no component
    at all, and the function answers [false] as well. *)
Lemma has_label_above_threshold_full_components_counterexample :
  ¬ (labelled cut_volume →
     every_component_at_least 2 cut_volume →
     no_component_in_margin (3 * 2) cut_volume →
     ∃ fs' img,
       has_label_above_threshold 3 "mask.nii.gz" 2 cut_files
         = Some (true, fs') ∧
       files fs' !! "mask.nii.gz"%string = Some img ∧
       ∀ p v, in_margin (3 * 2) cut_volume p = false →
              get3 (flush_border (3 * 2) cut_volume) p = Some v →
              get3 (voxels img) p = Some v) ∧
  ¬ (labelled blank_volume →
     every_component_at_least 2 blank_volume →
     no_component_in_margin (3 * 2) blank_volume →
     ∃ fs' img,
       has_label_above_threshold 3 "mask.nii.gz" 2 blank_files
         = Some (true, fs') ∧
       files fs' !! "mask.nii.gz"%string = Some img ∧
       ∀ p v, in_margin (3 * 2) blank_volume p = false →
              get3 (flush_border (3 * 2) blank_volume) p = Some v →
              get3 (voxels img) p = Some v).
Proof.
  split.
  - intros H. destruct H as (fs' & img & Heq & _).
    + apply labelled_cube. intros p. repeat case_decide; lia.
    + intros p comp Hp Hcomp.
      destruct (component_of_cut_volume p comp Hp Hcomp) as [-> _]. lia.
    + intros p comp Hp Hcomp.
      destruct (component_of_cut_volume p comp Hp Hcomp) as [_ Hin].
      by exists (6, 6, 6)%nat.
    + assert (fst <$> has_label_above_threshold 3 "mask.nii.gz" 2 cut_files
              = Some false) as Hrun by (vm_compute; reflexivity).
      rewrite Heq in Hrun. discriminate.
  - assert (∀ p, ¬ is_foreground blank_volume p) as Hblank.
    { intros p (v & Hv & Hpos). unfold blank_volume, cube in Hv.
      rewrite get3_imap3 in Hv. destruct (get3 _ p); simpl in Hv; [|done].
      injection Hv as <-. lia. }
    intros H. destruct H as (fs' & img & Heq & _).
    + apply labelled_cube. intros p. lia.
    + intros p comp Hp. by destruct (Hblank p).
    + intros p comp Hp. by destruct (Hblank p).
    + assert (fst <$> has_label_above_threshold 3 "mask.nii.gz" 2 blank_files
              = Some false) as Hrun by (vm_compute; reflexivity).
      rewrite Heq in Hrun. discriminate.
Qed.
